(** * DJ Library Organizer: the background analysis pipeline

    A shallow embedding of the parts of the program that carry its logic:

    - [B64]      : the floats of Python, with the operations the estimate
                   uses;
    - [Eta]      : [src/utils/eta_calculator.py], class [ETACalculator];
    - [Waveform] : [src/audio/processor.py], [_generate_waveform_lines];
    - [Metadata] : [src/audio/processor.py], [_extract_metadata] and
                   [is_file_processed]; [src/audio/metadata.py],
                   [save_metadata];
    - [Analyzer] : [src/audio/processor.py], [analyze_audio_file];
    - [Playback] : [src/audio/processor.py], [play_audio];
                   [src/main_app.py], [_seek_relative];
    - [Pool]     : [src/utils/threading_utils.py], class [WorkerManager],
                   as a transition system: one step of the calling thread
                   or of one worker thread at a time.

    The estimate of [Eta] is computed as Python computes it, in binary64
    floating point ([B64]).  The geometry of the waveform and the rating
    arithmetic of the tags are over exact rationals ([Q]); where binary64
    rounding can show in a result, the definition says so.  Wall-clock
    readings ([time.time()]) are arguments of the operations that read the
    clock. *)

From Stdlib Require Import ZArith QArith Qround Qpower Qminmax Lia Lqa List
  DecimalString.
From stdpp Require Import base list strings gmap.

Open Scope Z_scope.

(** ** Shared Python idioms *)

(** [x < y] on numbers. *)
Definition Qltb (x y : Q) : bool := negb (Qle_bool y x).

Lemma Qltb_false_iff (x y : Q) : Qltb x y = false <-> (y <= x)%Q.
Proof.
  unfold Qltb. rewrite negb_false_iff. apply Qle_bool_iff.
Qed.

(** [sum(xs)]: left fold starting from [0]. *)
Definition py_sum (xs : list Q) : Q := fold_left Qplus xs 0%Q.

(** [f"{n:02}"] for an [int]: zero fill to width two, sign first. *)
Definition format_02 (n : Z) : string :=
  let s := NilZero.string_of_int (Z.to_int n) in
  if (0 <=? n) && (n <? 10) then "0" +:+ s else s.

(** ** Python floats *)

(** The [float] of Python is the binary64 format of IEEE 754.  A finite
    float is kept as the rational number it denotes, and every operation
    is the exact operation followed by rounding to the nearest float, ties
    to the even significand.  The sign of a zero is not kept: nothing below
    depends on it. *)
Module B64.

Inductive float :=
| Fin (q : Q)
| PInf
| NInf
| NaN.

(** The exceptions of the arithmetic. *)
Inductive error := OverflowError | ValueError | ZeroDivisionError.

Definition raises (A : Type) : Type := error + A.

Definition and_then {A B} (m : raises A) (k : A -> raises B) : raises B :=
  match m with
  | inl e => inl e
  | inr a => k a
  end.

(** Truncation towards zero. *)
Definition Qtrunc (x : Q) : Z := if Qle_bool 0 x then Qfloor x else Qceiling x.

Definition pow2 (k : Z) : Q := (2 ^ k)%Q.

(** [floor(log2 x)] for [x > 0]. *)
Definition ilog2 (x : Q) : Z :=
  let k := Z.log2 (Qnum x) - Z.log2 (Zpos (Qden x)) in
  if Qle_bool (pow2 k) x then k else k - 1.

(** The nearest integer, ties to the even one. *)
Definition rne (x : Q) : Z :=
  let f := Qfloor x in
  match (x - inject_Z f ?= 1 # 2)%Q with
  | Lt => f
  | Gt => f + 1
  | Eq => if Z.even f then f else f + 1
  end.

(** The largest finite float. *)
Definition max_value : Q := inject_Z ((2 ^ 53 - 1) * 2 ^ 971).

(** The nearest number [m * 2^e] with [m < 2^53] and [e >= -1074], for
    [x > 0], the exponent not bounded from above. *)
Definition round_pos (x : Q) : Q :=
  let e := Z.max (ilog2 x - 52) (- 1074) in
  Qred (inject_Z (rne (x / pow2 e)) * pow2 e).

(** Rounding to binary64: what exceeds the largest float after rounding is
    an infinity. *)
Definition rnd (x : Q) : float :=
  match (x ?= 0)%Q with
  | Eq => Fin 0
  | Gt => let v := round_pos x in
          if Qle_bool v max_value then Fin v else PInf
  | Lt => let v := round_pos (- x) in
          if Qle_bool v max_value then Fin (- v) else NInf
  end.

(** [float(n)] for an [int], as the arithmetic operators convert an [int]
    operand; an [int] too large for a float raises. *)
Definition float_of_int (n : Z) : raises float :=
  match rnd (inject_Z n) with
  | Fin q => inr (Fin q)
  | _ => inl OverflowError
  end.

Definition fneg (a : float) : float :=
  match a with
  | Fin q => Fin (- q)
  | PInf => NInf
  | NInf => PInf
  | NaN => NaN
  end.

Definition fadd (a b : float) : float :=
  match a, b with
  | NaN, _ | _, NaN => NaN
  | PInf, NInf | NInf, PInf => NaN
  | PInf, _ | _, PInf => PInf
  | NInf, _ | _, NInf => NInf
  | Fin x, Fin y => rnd (x + y)
  end.

Definition fsub (a b : float) : float := fadd a (fneg b).

(** An infinity with the sign of [x * y], [NaN] when [x] is zero. *)
Definition inf_times (positive : bool) (x : Q) : float :=
  match (x ?= 0)%Q with
  | Eq => NaN
  | Gt => if positive then PInf else NInf
  | Lt => if positive then NInf else PInf
  end.

Definition fmul (a b : float) : float :=
  match a, b with
  | NaN, _ | _, NaN => NaN
  | Fin x, Fin y => rnd (x * y)
  | Fin x, PInf | PInf, Fin x => inf_times true x
  | Fin x, NInf | NInf, Fin x => inf_times false x
  | PInf, PInf | NInf, NInf => PInf
  | PInf, NInf | NInf, PInf => NInf
  end.

(** Division by a finite float [d] that is not zero. *)
Definition fdiv_by (a : float) (d : Q) : float :=
  match a with
  | NaN => NaN
  | Fin x => rnd (x / d)
  | PInf => if Qle_bool 0 d then PInf else NInf
  | NInf => if Qle_bool 0 d then NInf else PInf
  end.

(** [a / b] of Python. *)
Definition truediv (a b : float) : raises float :=
  match b with
  | Fin d => if Qeq_bool d 0 then inl ZeroDivisionError else inr (fdiv_by a d)
  | NaN => inr NaN
  | PInf | NInf =>
      inr (match a with
           | Fin _ => Fin 0
           | _ => NaN
           end)
  end.

(** [a < q] and [a > q] for a finite [q]. *)
Definition flt (a : float) (q : Q) : bool :=
  match a with
  | Fin x => Qltb x q
  | NInf => true
  | PInf | NaN => false
  end.

Definition fgt (a : float) (q : Q) : bool :=
  match a with
  | Fin x => Qltb q x
  | PInf => true
  | NInf | NaN => false
  end.

(** The test [if (x)] of C: everything but a zero. *)
Definition nonzero (a : float) : bool :=
  match a with
  | Fin x => negb (Qeq_bool x 0)
  | _ => true
  end.

(** [fmod(a, w)] of C for a finite [w > 0]: the remainder of the division
    truncated towards zero; it is a float, no rounding takes place. *)
Definition fmod (a : float) (w : Q) : float :=
  match a with
  | Fin x => Fin (Qred (x - w * inject_Z (Qtrunc (x / w))))
  | _ => NaN
  end.

(** [floor(a)] of C: the result is a float, no rounding takes place. *)
Definition ffloor (a : float) : float :=
  match a with
  | Fin x => Fin (inject_Z (Qfloor x))
  | _ => a
  end.

(** [divmod(vx, w)] of Python for a float [vx] and a number [w > 0]:
    [_float_div_mod] of CPython. *)
Definition divmod (vx : float) (w : Q) : float * float :=
  let mod_ := fmod vx w in
  let div := fdiv_by (fsub vx mod_) w in
  let '(mod_, div) :=
    if nonzero mod_
    then if flt mod_ 0 then (fadd mod_ (Fin w), fsub div (Fin 1))
         else (mod_, div)
    else (Fin 0, div) in
  let floordiv :=
    if nonzero div
    then let floordiv := ffloor div in
         if fgt (fsub div floordiv) (1 # 2) then fadd floordiv (Fin 1)
         else floordiv
    else Fin 0 in
  (floordiv, mod_).

(** [int(a)] *)
Definition int (a : float) : raises Z :=
  match a with
  | Fin x => inr (Qtrunc x)
  | NaN => inl ValueError
  | PInf | NInf => inl OverflowError
  end.

(** [sum] over floats as CPython computes it up to version 3.11: the
    additions from left to right, starting from [0]. *)
Definition sum_left (xs : list float) : float := fold_left fadd xs (Fin 0).

(** *** Facts about rounding *)



















(** *** Facts about [divmod] *)








End B64.

(** ** [utils/eta_calculator.py] *)
Module Eta.
Import B64.

(** [collections.deque(maxlen=m).append(x)]: push on the right, then discard
    from the left whatever exceeds [m]. *)
Definition deque_append {A} (m : nat) (x : A) (d : list A) : list A :=
  let d' := d ++ [x] in
  drop (length d' - m)%nat d'.

Record ETACalculator := mkETA {
  maxlen : nat;                          (* deque(maxlen=max_samples) *)
  processing_times : list Q;             (* oldest sample first *)
  current_track_start_time : option Q    (* None, or a clock reading *)
}.

(** [ETACalculator(max_samples)]; the default of [max_samples] is [10]. *)
Definition __init__ (max_samples : nat) : ETACalculator :=
  mkETA max_samples [] None.

Definition default_max_samples : nat := 10.

Definition new : ETACalculator := __init__ default_max_samples.

(** [start_tracking]: [now] is the value [time.time()] returns. *)
Definition start_tracking (now : Q) (e : ETACalculator) : ETACalculator :=
  mkETA (maxlen e) (processing_times e) (Some now).

(** Truth value of [self.current_track_start_time]: [None] and [0.0] are
    false. *)
Definition truthy (t : option Q) : bool :=
  match t with
  | None => false
  | Some x => negb (Qeq_bool x 0)
  end.

(** [log_completion]: the sample is appended only under the [if]; the start
    time is cleared in both branches. *)
Definition log_completion (now : Q) (e : ETACalculator) : ETACalculator :=
  let times :=
    match current_track_start_time e with
    | Some start =>
        if truthy (Some start)
        then deque_append (maxlen e) (now - start)%Q (processing_times e)
        else processing_times e
    | None => processing_times e
    end in
  mkETA (maxlen e) times None.

Section Estimate.

(** The builtin [sum] applied to a list of floats.  Its rounding depends
    on the interpreter: additions from left to right up to CPython 3.11
    ([B64.sum_left]), with a compensation of the rounding errors from 3.12
    on.  The estimate is described for whatever float it returns. *)
Variable fsum : list float -> float.

(** [sum(self.processing_times) / len(self.processing_times)].  The ring
    holds the differences of the clock readings; [rnd] makes each the
    float that the subtraction of [log_completion] has stored. *)
Definition avg_time (ts : list Q) : raises float :=
  let s := fsum (map rnd ts) in
  and_then (float_of_int (Z.of_nat (length ts))) (fun n => truediv s n).

(** [avg_time * remaining_count] *)
Definition total_seconds (ts : list Q) (remaining_count : Z) : raises float :=
  and_then (avg_time ts) (fun avg =>
  and_then (float_of_int remaining_count) (fun n => inr (fmul avg n))).

(** The two [divmod]s and the two [int]s of the last lines. *)
Definition hours_minutes (total_seconds : float) : raises (Z * Z) :=
  let '(minutes, _) := divmod total_seconds 60 in
  let '(hours, minutes) := divmod minutes 60 in
  and_then (int hours) (fun h =>
  and_then (int minutes) (fun m => inr (h, m))).

Definition get_eta_string (remaining_count : Z) (e : ETACalculator)
    : raises string :=
  let ts := processing_times e in
  if (length ts =? 0)%nat || (length ts <? 3)%nat then inr ""
  else if remaining_count =? 0 then inr ""
  else
    and_then (total_seconds ts remaining_count) (fun total =>
    if flt total 60 then inr ""
    else
      and_then (hours_minutes total) (fun '(h, m) =>
      inr ("ETA: " +:+ format_02 h +:+ ":" +:+ format_02 m))).

End Estimate.

Definition reset (e : ETACalculator) : ETACalculator :=
  mkETA (maxlen e) [] None.

(** The operations of the class, for statements that range over all of
    them.  [get_eta_string] does not change the object. *)
Inductive op :=
| OpStartTracking (now : Q)
| OpLogCompletion (now : Q)
| OpGetEtaString (remaining_count : Z)
| OpReset.

Definition apply_op (o : op) (e : ETACalculator) : ETACalculator :=
  match o with
  | OpStartTracking now => start_tracking now e
  | OpLogCompletion now => log_completion now e
  | OpGetEtaString _ => e
  | OpReset => reset e
  end.

Definition run_ops (os : list op) (e : ETACalculator) : ETACalculator :=
  fold_left (fun e o => apply_op o e) os e.


(** *** Facts about the sample ring *)

Lemma deque_append_length {A} (m : nat) (x : A) (d : list A) :
  (length d <= m)%nat -> (length (deque_append m x d) <= m)%nat.
Proof.
  intros Hd. unfold deque_append.
  rewrite length_drop, length_app. simpl. lia.
Qed.

Lemma deque_append_room {A} (m : nat) (x : A) (d : list A) :
  (length d < m)%nat -> deque_append m x d = d ++ [x].
Proof.
  intros Hd. unfold deque_append. rewrite length_app. simpl.
  replace (length d + 1 - m)%nat with 0%nat by lia. reflexivity.
Qed.

Lemma deque_append_full {A} (m : nat) (x oldest : A) (d : list A) :
  length (oldest :: d) = m -> deque_append m x (oldest :: d) = d ++ [x].
Proof.
  intros Hd. unfold deque_append. rewrite length_app, Hd. simpl.
  replace (m + 1 - m)%nat with 1%nat by lia. reflexivity.
Qed.

(** The invariant of the object: the ring respects its bound. *)
Definition ring_ok (e : ETACalculator) : Prop :=
  (length (processing_times e) <= maxlen e)%nat.

Lemma apply_op_maxlen (o : op) (e : ETACalculator) :
  maxlen (apply_op o e) = maxlen e.
Proof. destruct o; reflexivity. Qed.

Lemma apply_op_ring_ok (o : op) (e : ETACalculator) :
  ring_ok e -> ring_ok (apply_op o e).
Proof.
  unfold ring_ok. intros He.
  destruct o; cbn [apply_op start_tracking log_completion reset
                   processing_times maxlen length]; try lia.
  destruct (current_track_start_time e) as [start|]; [|exact He].
  destruct (truthy (Some start)); [|exact He].
  by apply deque_append_length.
Qed.

Lemma run_ops_ring_ok (os : list op) (e : ETACalculator) :
  ring_ok e -> ring_ok (run_ops os e) /\ maxlen (run_ops os e) = maxlen e.
Proof.
  revert e. induction os as [|o os IH]; intros e He; [easy|].
  unfold run_ops in *. simpl.
  destruct (IH (apply_op o e)) as [H1 H2]; [by apply apply_op_ring_ok|].
  split; [exact H1|]. rewrite H2. apply apply_op_maxlen.
Qed.

(** C7. The ring of processing-time samples of a calculator built with the
    default [max_samples] never holds more than 10 entries, whatever
    sequence of [start_tracking], [log_completion], [get_eta_string] and
    [reset] is applied; every one of these operations preserves the bound
    and the capacity; and when a sample is logged into a ring that already
    holds 10, the oldest one is dropped and the new one is placed last. *)
Theorem pacing_ring_invariant :
  (forall os : list op,
      (length (processing_times (run_ops os new)) <= 10)%nat) /\
  (forall (o : op) (e : ETACalculator),
      ring_ok e -> ring_ok (apply_op o e) /\ maxlen (apply_op o e) = maxlen e) /\
  (forall (e : ETACalculator) (start now oldest : Q) (rest : list Q),
      maxlen e = 10%nat ->
      processing_times e = oldest :: rest -> length rest = 9%nat ->
      current_track_start_time e = Some start -> truthy (Some start) = true ->
      processing_times (log_completion now e) = rest ++ [(now - start)%Q]).
Proof.
  split; [|split].
  - intros os.
    destruct (run_ops_ring_ok os new) as [H1 H2]; [unfold ring_ok; simpl; lia|].
    unfold ring_ok in H1. rewrite H2 in H1. exact H1.
  - intros o e He. split; [by apply apply_op_ring_ok | apply apply_op_maxlen].
  - intros e start now oldest rest Hm Ht Hl Hs Htr.
    unfold log_completion. rewrite Hs, Htr, Ht, Hm. simpl.
    apply deque_append_full. simpl. lia.
Qed.

(** A full ring, one more completed track: the sample [1] leaves, the
    sample [11] arrives. *)
Definition full_ring : ETACalculator :=
  mkETA 10 (map inject_Z [1; 2; 3; 4; 5; 6; 7; 8; 9; 10]) (Some 100%Q).

Lemma pacing_ring_invariant_witness :
  ring_ok (apply_op (OpLogCompletion 111%Q) full_ring) /\
  processing_times (log_completion 111%Q full_ring)
  = map inject_Z [2; 3; 4; 5; 6; 7; 8; 9; 10] ++ [(111 - 100)%Q].
Proof.
  split.
  - apply (proj1 (proj2 pacing_ring_invariant)). unfold ring_ok. simpl. lia.
  - apply (proj2 (proj2 pacing_ring_invariant) full_ring 100%Q 111%Q 1%Q);
      reflexivity.
Defined.

(** *** Facts about [get_eta_string] *)


Section EstimateFacts.
Variable fsum : list float -> float.





End EstimateFacts.



(** Where the rounding shows: the samples 1, 22 and 29 with 225 items
    left make 3900 seconds in exact arithmetic, and 3899.9999999999995 in
    binary64, one minute less on the display. *)
Example rounding_shows :
  get_eta_string sum_left 225 (mkETA 10 [1%Q; 22%Q; 29%Q] None)
  = inr "ETA: 01:04".
Proof. vm_compute. reflexivity. Qed.

(** *** The ring as the tail of everything logged *)

(** The samples logged since the last [reset] and the start time in
    force, kept without any bound: what the calculator would hold if its
    deque had no [maxlen]. *)
Definition logged_step (st : option Q * list Q) (o : op) : option Q * list Q :=
  match o with
  | OpStartTracking now => (Some now, snd st)
  | OpLogCompletion now =>
      match fst st with
      | Some start =>
          (None, if truthy (Some start) then snd st ++ [(now - start)%Q] else snd st)
      | None => (None, snd st)
      end
  | OpGetEtaString _ => st
  | OpReset => (None, [])
  end.

Definition logged (os : list op) (st : option Q * list Q) : option Q * list Q :=
  fold_left logged_step os st.

(** The last [m] elements of a list. *)
Definition last_n {A} (m : nat) (l : list A) : list A :=
  drop (length l - m)%nat l.

Lemma last_n_snoc {A} (m : nat) (x : A) (h : list A) :
  deque_append m x (last_n m h) = last_n m (h ++ [x]).
Proof.
  unfold deque_append, last_n.
  rewrite !length_app, length_drop. simpl.
  destruct (decide (length h <= m)%nat) as [Hle|Hgt].
  - replace (length h - m)%nat with 0%nat by lia. simpl.
    by rewrite Nat.sub_0_r.
  - destruct m as [|m].
    { rewrite !drop_ge; [reflexivity | | ]; rewrite ?length_app, ?length_drop;
        simpl; lia. }
    replace (length h - (length h - S m) + 1 - S m)%nat with 1%nat by lia.
    replace (length h + 1 - S m)%nat with (length h - S m + 1)%nat by lia.
    rewrite (drop_app_le h [x]) by lia.
    rewrite (drop_app_le (drop (length h - S m) h) [x])
      by (rewrite length_drop; lia).
    by rewrite drop_drop.
Qed.

Lemma last_n_nil {A} (m : nat) : last_n m ([] : list A) = [].
Proof. reflexivity. Qed.

(** The calculator [e] holds the tail of the unbounded record [st]. *)
Definition tail_of (st : option Q * list Q) (e : ETACalculator) : Prop :=
  current_track_start_time e = fst st /\
  processing_times e = last_n (maxlen e) (snd st).

Lemma tail_of_step (o : op) (st : option Q * list Q) (e : ETACalculator) :
  tail_of st e -> tail_of (logged_step st o) (apply_op o e).
Proof.
  intros [Hc Hp]. destruct o; unfold tail_of; simpl.
  - split; [reflexivity | exact Hp].
  - rewrite Hc. destruct (fst st) as [start|]; simpl.
    + destruct (negb (Qeq_bool start 0)); simpl.
      * split; [reflexivity|]. rewrite Hp. apply last_n_snoc.
      * split; [reflexivity | exact Hp].
    + split; [reflexivity | exact Hp].
  - split; assumption.
  - split; reflexivity.
Qed.

Lemma tail_of_run (os : list op) (st : option Q * list Q) (e : ETACalculator) :
  tail_of st e -> tail_of (logged os st) (run_ops os e).
Proof.
  revert st e. induction os as [|o os IH]; intros st e H; [exact H|].
  unfold logged, run_ops. simpl. apply IH. by apply tail_of_step.
Qed.

(** X1. Whatever sequence of operations is applied to a new calculator,
    its ring holds exactly the last 10 of the samples logged since the most
    recent [reset], oldest first (all of them while fewer than 10 have been
    logged): eviction always removes the oldest sample, and nothing else
    ever leaves or enters the ring. *)
Theorem ring_is_recent_history (os : list op) :
  processing_times (run_ops os new)
  = last_n 10 (snd (logged os (None, []))) /\
  current_track_start_time (run_ops os new) = fst (logged os (None, [])).
Proof.
  destruct (tail_of_run os (None, []) new) as [Hc Hp].
  { split; reflexivity. }
  split; [|exact Hc].
  rewrite Hp.
  by rewrite (proj2 (run_ops_ring_ok os new ltac:(unfold ring_ok; simpl; lia))).
Qed.

(** *** Estimates after a reset *)

(** How many times [log_completion] is called in a sequence of
    operations. *)
Definition is_completion (o : op) : bool :=
  match o with
  | OpLogCompletion _ => true
  | _ => false
  end.

Definition completions (os : list op) : nat :=
  length (List.filter is_completion os).

Lemma apply_op_grows_by_one (o : op) (e : ETACalculator) :
  (length (processing_times (apply_op o e))
   <= length (processing_times e) + completions [o])%nat.
Proof.
  destruct o; unfold completions;
    cbn [apply_op start_tracking log_completion reset processing_times
         List.filter is_completion length]; try lia.
  destruct (current_track_start_time e) as [start|]; [|lia].
  destruct (truthy (Some start)); [|lia].
  unfold deque_append. rewrite length_drop, length_app. simpl. lia.
Qed.

Lemma completions_cons (o : op) (os : list op) :
  completions (o :: os) = (completions [o] + completions os)%nat.
Proof.
  unfold completions. simpl. by destruct (is_completion o).
Qed.

Lemma run_ops_grows (os : list op) (e : ETACalculator) :
  (length (processing_times (run_ops os e))
   <= length (processing_times e) + completions os)%nat.
Proof.
  revert e. induction os as [|o os IH]; intros e.
  - unfold completions. simpl. lia.
  - rewrite completions_cons. unfold run_ops in *. simpl.
    specialize (IH (apply_op o e)).
    pose proof (apply_op_grows_by_one o e). lia.
Qed.

(** X2. After [reset], and until [log_completion] has been called three
    times, [get_eta_string] returns the empty string for every remaining
    count, whatever else is called in between (and whatever float the
    builtin [sum] would return: it is not called): the samples of the
    previous folder never feed an estimate for the new one. *)
Theorem no_estimate_before_three_completions (fsum : list float -> float)
    (e : ETACalculator) (os : list op) (remaining_count : Z) :
  (completions os < 3)%nat ->
  get_eta_string fsum remaining_count (run_ops os (reset e)) = inr "".
Proof.
  intros Hc. unfold get_eta_string.
  pose proof (run_ops_grows os (reset e)) as Hlen. simpl in Hlen.
  destruct (Nat.eqb_spec (length (processing_times (run_ops os (reset e)))) 0);
    [reflexivity|].
  destruct (Nat.ltb_spec (length (processing_times (run_ops os (reset e)))) 3);
    [reflexivity | lia].
Qed.

(** Two tracks reviewed in a new folder: still no estimate, even with a
    thousand files left. *)
Lemma no_estimate_before_three_completions_witness :
  get_eta_string sum_left 1000
    (run_ops [OpStartTracking 5; OpLogCompletion 65;
              OpStartTracking 70; OpLogCompletion 130] (reset full_ring))
  = inr "".
Proof.
  apply no_estimate_before_three_completions. vm_compute. lia.
Defined.

End Eta.

(** ** [audio/processor.py]: the waveform *)
Module Waveform.

Definition default_canvas_width : nat := 1160.
Definition default_canvas_height : Z := 400.

(** [max(a, b)] of Python: [b] when [b > a], else [a]. *)
Definition py_max (a b : Q) : Q := if Qltb a b then b else a.

(** The local function [scale_energy]; [2.2] is [22/10]. *)
Definition scale_energy (canvas_height : Z) (energy : Q) : Q :=
  (py_max 0 ((energy + 80) / 80) * (inject_Z canvas_height / (22 # 10)))%Q.

(** [np.linspace(start, stop, num=num, dtype=int)] with the end point
    included: [num] evenly spaced values, the last one set to [stop], each
    rounded down.  The spacing is taken exactly here; numpy computes
    [i * (delta / div)] in binary64, so that an interior value whose exact
    position is an integer, or within a rounding error of one, can come
    out one lower in numpy than here ([np.linspace(0, 95, 1160)[183]] is
    14 there and 15 here).  The facts below that mention the sampled
    indices are about what the rounding leaves alone for the frame counts
    and widths of an audio file: the number of values, the first and the
    last one, their range and their order.  What the loop does with an
    index is stated for an arbitrary list of indices. *)
Definition np_linspace_int (start stop : Z) (num : nat) : list Z :=
  let div := (Z.of_nat num - 1)%Z in
  let delta := inject_Z (stop - start) in
  map (fun i : nat =>
         let k := inject_Z (Z.of_nat i) in
         let y := if 0 <? div then (k * (delta / inject_Z div))%Q
                  else (k * delta)%Q in
         let y := (y + inject_Z start)%Q in
         let y := if (1 <? Z.of_nat num) && (Z.of_nat i =? div)
                  then inject_Z stop else y in
         Qfloor y)
      (seq 0 num).

(** The spectrogram in decibels, one list of bins per time frame:
    [stft_db[:, t]] is the [t]-th element and [stft_db.shape[1]] the number
    of elements. *)
Definition spectrogram := list (list Q).

Definition shape1 (stft_db : spectrogram) : Z := Z.of_nat (length stft_db).

(** [stft_db[:, t]]: a negative index counts from the end, an index out of
    both ranges raises [IndexError] ([None]). *)
Definition column (stft_db : spectrogram) (t : Z) : option (list Q) :=
  if (0 <=? t) && (t <? shape1 stft_db) then stft_db !! Z.to_nat t
  else if (- shape1 stft_db <=? t) && (t <? 0)
       then stft_db !! Z.to_nat (shape1 stft_db + t)
       else None.

(** The three band masks over the bin frequencies. *)
Definition bass_mask (freqs : list Q) : list bool :=
  map (fun f => Qle_bool 20 f && Qltb f 500) freqs.
Definition mid_mask (freqs : list Q) : list bool :=
  map (fun f => Qle_bool 500 f && Qltb f 2000) freqs.
Definition high_mask (freqs : list Q) : list bool :=
  map (fun f => Qle_bool 2000 f && Qle_bool f 20000) freqs.

(** [np.any(mask)] *)
Definition np_any (mask : list bool) : bool := existsb id mask.

(** [frame[mask]]: the bins the mask selects (mask and frame have the same
    length, one entry per frequency bin). *)
Definition select (mask : list bool) (frame : list Q) : list Q :=
  map snd (filter (fun p => fst p = true) (zip mask frame)).

(** [np.mean(xs)] *)
Definition np_mean (xs : list Q) : Q :=
  (py_sum xs / inject_Z (Z.of_nat (length xs)))%Q.

(** [np.mean(frame[mask]) if np.any(mask) else -80.0] *)
Definition band_energy (mask : list bool) (frame : list Q) : Q :=
  if np_any mask then np_mean (select mask frame) else (- 80)%Q.

(** One drawing primitive: [coords] and the two [options]. *)
Record line := mkLine {
  coords : Z * Q * Z * Q;
  fill : string;
  width : Z
}.

(** The three masks, computed once before the loop. *)
Record masks := mkMasks {
  bass : list bool;
  mid : list bool;
  high : list bool
}.

Definition band_masks (freqs : list Q) : masks :=
  mkMasks (bass_mask freqs) (mid_mask freqs) (high_mask freqs).

(** The three primitives of column [i], read from frame [frame]. *)
Definition column_lines (m : masks) (canvas_height : Z)
    (i : Z) (frame : list Q) : list line :=
  let center_y := (inject_Z canvas_height / 2)%Q in
  let bass_h := scale_energy canvas_height (band_energy (bass m) frame) in
  let mid_h := scale_energy canvas_height (band_energy (mid m) frame) in
  let high_h := scale_energy canvas_height (band_energy (high m) frame) in
  [ mkLine (i, (center_y - bass_h)%Q, i, (center_y + bass_h)%Q) "#0096FF" 1;
    mkLine (i, (center_y - mid_h)%Q, i, (center_y + mid_h)%Q) "#4CBB17" 1;
    mkLine (i, (center_y - high_h)%Q, i, (center_y + high_h)%Q) "white" 1 ].

(** The body of [for i, t in enumerate(time_points)], from column [i] on.
    [skipped] counts the iterations that took the [continue]. *)
Fixpoint waveform_loop (stft_db : spectrogram) (m : masks)
    (canvas_height : Z) (i : Z) (time_points : list Z)
    : option (list line * nat) :=
  match time_points with
  | [] => Some ([], 0%nat)
  | t :: rest =>
      if shape1 stft_db <=? t then
        '(ls, skipped) ← waveform_loop stft_db m canvas_height (i + 1) rest;
        Some (ls, S skipped)
      else
        frame ← column stft_db t;
        '(ls, skipped) ← waveform_loop stft_db m canvas_height (i + 1) rest;
        Some (column_lines m canvas_height i frame ++ ls, skipped)
  end.

Definition time_points (stft_db : spectrogram) (canvas_width : nat) : list Z :=
  np_linspace_int 0 (shape1 stft_db - 1) canvas_width.

(** [_generate_waveform_lines], from the point where [stft_db] and [freqs]
    have been computed by librosa (the frames of [stft_db] and [freqs] have
    one entry per frequency bin).  [None] is an uncaught [IndexError]. *)
Definition _generate_waveform_lines (stft_db : spectrogram) (freqs : list Q)
    (canvas_width : nat) (canvas_height : Z) : option (list line) :=
  fst <$> waveform_loop stft_db (band_masks freqs) canvas_height 0
            (time_points stft_db canvas_width).

(** How many iterations of the loop were skipped. *)
Definition skipped_columns (stft_db : spectrogram) (freqs : list Q)
    (canvas_width : nat) (canvas_height : Z) : option nat :=
  snd <$> waveform_loop stft_db (band_masks freqs) canvas_height 0
            (time_points stft_db canvas_width).

(** *** The scaling formula *)

(** The formula of the specification, written with the library maximum:
    [max(0, (meanDb + 80) / 80) * (canvasHeight / 2.2)]. *)
Definition scaled_spec (canvas_height : Z) (meanDb : Q) : Q :=
  (Qmax 0 ((meanDb + 80) / 80) * (inject_Z canvas_height / (22 # 10)))%Q.

Lemma py_max_Qmax (a b : Q) : (py_max a b == Qmax a b)%Q.
Proof.
  unfold py_max. destruct (Qltb a b) eqn:H.
  - unfold Qltb in H. apply negb_true_iff in H.
    assert (Hlt : (a < b)%Q).
    { apply Qnot_le_lt. intros Hle. apply Qle_bool_iff in Hle. congruence. }
    symmetry. apply Q.max_r. by apply Qlt_le_weak.
  - apply Qltb_false_iff in H. symmetry. by apply Q.max_l.
Qed.

Lemma py_max0_nonpos (x : Q) : (x <= 0)%Q -> py_max 0 x = 0%Q.
Proof.
  intros H. unfold py_max. apply Qltb_false_iff in H. by rewrite H.
Qed.

Lemma py_max0_pos (x : Q) : (0 < x)%Q -> py_max 0 x = x.
Proof.
  intros H. unfold py_max, Qltb.
  destruct (Qle_bool x 0) eqn:E; [|reflexivity].
  apply Qle_bool_iff in E. exfalso. lra.
Qed.

(** C4. For every mean level [meanDb] and canvas height, [scale_energy]
    returns [max(0, (meanDb + 80) / 80) * (canvas_height / 2.2)]; a mean of
    -80 dB or less is mapped to 0 and a mean of 0 dB to
    [canvas_height / 2.2]; at the default height of 400 the latter is
    [400 / 2.2]. *)
Theorem scale_energy_spec (canvas_height : Z) (meanDb : Q) :
  (scale_energy canvas_height meanDb == scaled_spec canvas_height meanDb)%Q /\
  ((meanDb <= - 80)%Q -> (scale_energy canvas_height meanDb == 0)%Q) /\
  (scale_energy canvas_height 0 == inject_Z canvas_height / (22 # 10))%Q /\
  (scale_energy default_canvas_height 0 == 400 / (22 # 10))%Q.
Proof.
  split; [|split; [|split]].
  - unfold scale_energy, scaled_spec. by rewrite py_max_Qmax.
  - intros H. unfold scale_energy.
    rewrite py_max0_nonpos; [ring|].
    apply Qle_shift_div_r; lra.
  - unfold scale_energy. rewrite py_max0_pos; [|reflexivity].
    field.
  - reflexivity.
Qed.

Lemma scale_energy_spec_witness :
  (scale_energy 400 (- 96) == 0)%Q.
Proof.
  apply (proj1 (proj2 (scale_energy_spec 400 (- 96)%Q))).
  vm_compute. discriminate.
Defined.

(** *** The sampled time indices *)

Lemma np_linspace_int_length (start stop : Z) (num : nat) :
  length (np_linspace_int start stop num) = num.
Proof. unfold np_linspace_int. by rewrite length_map, length_seq. Qed.

(** A point [k/d] of the way from [0] to [s] lies between them. *)
Lemma along_the_way (k d s : Q) :
  (0 <= k)%Q -> (k <= d)%Q -> (0 < d)%Q -> (0 <= s)%Q ->
  (0 <= k * (s / d) + 0 /\ k * (s / d) + 0 <= s)%Q.
Proof.
  intros Hk Hkd Hd Hs.
  assert (E : (k * (s / d) + 0 == (k * s) / d)%Q) by (field; lra).
  rewrite E. split.
  - apply Qle_shift_div_l; [exact Hd|]. nra.
  - apply Qle_shift_div_r; [exact Hd|]. nra.
Qed.

Lemma Qfloor_between (y : Q) (lo hi : Z) :
  (inject_Z lo <= y)%Q -> (y <= inject_Z hi)%Q -> lo <= Qfloor y <= hi.
Proof.
  intros Hlo Hhi. split.
  - rewrite <- (Qfloor_Z lo). by apply Qfloor_resp_le.
  - rewrite <- (Qfloor_Z hi). by apply Qfloor_resp_le.
Qed.

Lemma np_linspace_int_range (stop : Z) (num : nat) :
  0 <= stop ->
  Forall (fun t => 0 <= t <= stop) (np_linspace_int 0 stop num).
Proof.
  intros Hstop. unfold np_linspace_int.
  apply Forall_forall. intros t Ht. apply list_elem_of_In in Ht.
  apply in_map_iff in Ht as (i & <- & Hi). apply in_seq in Hi.
  rewrite Z.sub_0_r.
  destruct ((1 <? Z.of_nat num) && (Z.of_nat i =? Z.of_nat num - 1)) eqn:Hlast.
  { rewrite Qfloor_Z. lia. }
  assert (Hs : (0 <= inject_Z stop)%Q).
  { change 0%Q with (inject_Z 0). by rewrite <- Zle_Qle. }
  assert (Hk : (0 <= inject_Z (Z.of_nat i))%Q).
  { change 0%Q with (inject_Z 0). rewrite <- Zle_Qle. lia. }
  destruct (Z.ltb_spec 0 (Z.of_nat num - 1)) as [Hdiv|Hdiv].
  - apply Qfloor_between;
      apply along_the_way; try assumption.
    + rewrite <- Zle_Qle. lia.
    + change 0%Q with (inject_Z 0). by rewrite <- Zlt_Qlt.
    + rewrite <- Zle_Qle. lia.
    + change 0%Q with (inject_Z 0). by rewrite <- Zlt_Qlt.
  - assert (i = 0)%nat as -> by lia.
    change (inject_Z (Z.of_nat 0)) with 0%Q.
    apply Qfloor_between; change (inject_Z 0) with 0%Q; lra.
Qed.

Lemma column_in_range (stft_db : spectrogram) (t : Z) :
  0 <= t < shape1 stft_db -> is_Some (column stft_db t).
Proof.
  intros Ht. unfold column.
  destruct (Z.leb_spec 0 t); [|lia].
  destruct (Z.ltb_spec t (shape1 stft_db)); [|lia]. simpl.
  apply lookup_lt_is_Some. unfold shape1 in *. lia.
Qed.

Lemma waveform_loop_no_skip (stft_db : spectrogram) (m : masks)
    (canvas_height : Z) (tps : list Z) (i : Z) :
  Forall (fun t => 0 <= t < shape1 stft_db) tps ->
  exists ls, waveform_loop stft_db m canvas_height i tps = Some (ls, 0%nat)
             /\ length ls = (3 * length tps)%nat.
Proof.
  revert i. induction tps as [|t tps IH]; intros i Htps.
  - exists []. split; reflexivity.
  - inversion Htps as [|? ? Ht Htps']; subst. cbv beta in Ht.
    destruct (IH (i + 1) Htps') as (ls & Hls & Hlen).
    destruct (column_in_range stft_db t Ht) as [frame Hframe].
    exists (column_lines m canvas_height i frame ++ ls).
    cbn [waveform_loop].
    destruct (Z.leb_spec (shape1 stft_db) t); [lia|].
    rewrite Hframe, Hls. simpl. split; [reflexivity|].
    rewrite Hlen. lia.
Qed.

(** C9. For a spectrogram with at least one frame, every sampled time
    index is a valid frame index (not negative and below the frame count),
    so no iteration of the loop is skipped, no index error is raised, and
    the list of primitives has exactly [3 * canvas_width] elements, that is
    3480 at the default width of 1160. *)
Theorem no_skipped_columns (stft_db : spectrogram) (freqs : list Q)
    (canvas_width : nat) (canvas_height : Z) :
  1 <= shape1 stft_db ->
  Forall (fun t => 0 <= t < shape1 stft_db) (time_points stft_db canvas_width) /\
  skipped_columns stft_db freqs canvas_width canvas_height = Some 0%nat /\
  (exists ls,
      _generate_waveform_lines stft_db freqs canvas_width canvas_height = Some ls
      /\ length ls = (3 * canvas_width)%nat) /\
  (3 * default_canvas_width = 3480)%nat.
Proof.
  intros HF.
  assert (Hr : Forall (fun t => 0 <= t < shape1 stft_db)
                 (time_points stft_db canvas_width)).
  { unfold time_points.
    eapply Forall_impl; [apply np_linspace_int_range; lia|].
    intros t Ht. cbv beta in Ht. lia. }
  destruct (waveform_loop_no_skip stft_db (band_masks freqs) canvas_height _ 0 Hr)
    as (ls & Hls & Hlen).
  split; [exact Hr|]. split; [|split].
  - unfold skipped_columns. by rewrite Hls.
  - exists ls. unfold _generate_waveform_lines. rewrite Hls.
    split; [reflexivity|].
    rewrite Hlen. unfold time_points. by rewrite np_linspace_int_length.
  - reflexivity.
Qed.

(** Two frames of two bins, sampled at the default width. *)
Definition two_frames : spectrogram := [[0%Q; (- 10)%Q]; [(- 80)%Q; (- 90)%Q]].

Lemma no_skipped_columns_witness :
  exists ls,
    _generate_waveform_lines two_frames [100%Q; 1000%Q]
      default_canvas_width default_canvas_height = Some ls
    /\ length ls = (3 * default_canvas_width)%nat.
Proof.
  apply (no_skipped_columns two_frames [100%Q; 1000%Q]
           default_canvas_width default_canvas_height).
  vm_compute. discriminate.
Defined.

(** *** The bands *)

Lemma Qltb_true_iff (x y : Q) : Qltb x y = true <-> (x < y)%Q.
Proof.
  unfold Qltb. rewrite negb_true_iff. split.
  - intros H. apply Qnot_le_lt. intros Hle. apply Qle_bool_iff in Hle. congruence.
  - intros H. destruct (Qle_bool y x) eqn:E; [|reflexivity].
    apply Qle_bool_iff in E. exfalso. lra.
Qed.

(** X5. The three masks are taken over the same bins; a bin is in the bass
    band exactly when its frequency is in [20, 500), in the mid band for
    [500, 2000), in the high band for [2000, 20000].  No bin is in two
    bands, and a bin is in some band exactly when its frequency lies
    between 20 Hz and 20 kHz: everything below 20 Hz or above 20 kHz is
    left out of the picture. *)
Theorem bands_partition (freqs : list Q) (i : nat) (f : Q) :
  freqs !! i = Some f ->
  exists b m h,
    bass_mask freqs !! i = Some b /\
    mid_mask freqs !! i = Some m /\
    high_mask freqs !! i = Some h /\
    (b = true <-> (20 <= f /\ f < 500)%Q) /\
    (m = true <-> (500 <= f /\ f < 2000)%Q) /\
    (h = true <-> (2000 <= f /\ f <= 20000)%Q) /\
    b && m = false /\ b && h = false /\ m && h = false /\
    (b || m || h = true <-> (20 <= f /\ f <= 20000)%Q).
Proof.
  intros Hf.
  exists (Qle_bool 20 f && Qltb f 500), (Qle_bool 500 f && Qltb f 2000),
         (Qle_bool 2000 f && Qle_bool f 20000).
  unfold bass_mask, mid_mask, high_mask.
  change (map ?g freqs) with (g <$> freqs).
  rewrite !list_lookup_fmap, Hf. simpl.
  split; [reflexivity|]. split; [reflexivity|]. split; [reflexivity|].
  rewrite !andb_true_iff, !Qltb_true_iff, !Qle_bool_iff.
  split; [tauto|]. split; [tauto|]. split; [tauto|].
  assert (Hb : forall c1 c2 : bool, (c1 = true -> c2 = true -> False) ->
                 c1 && c2 = false).
  { intros [] []; intros H; try reflexivity. exfalso. by apply H. }
  split; [|split; [|split]].
  - apply Hb. rewrite !andb_true_iff, !Qltb_true_iff, !Qle_bool_iff. lra.
  - apply Hb. rewrite !andb_true_iff, !Qltb_true_iff, !Qle_bool_iff. lra.
  - apply Hb. rewrite !andb_true_iff, !Qltb_true_iff, !Qle_bool_iff. lra.
  - rewrite !orb_true_iff, !andb_true_iff, !Qltb_true_iff, !Qle_bool_iff.
    split; [lra|]. intros [H1 H2].
    destruct (Qlt_le_dec f 500); [left; left; lra|].
    destruct (Qlt_le_dec f 2000); [left; right; lra | right; lra].
Qed.

(** At 22050 Hz the bin 47 sits at about 506 Hz: mid band only. *)
Lemma bands_partition_witness :
  exists b m h,
    bass_mask [10%Q; (47 * 22050 # 2048)%Q] !! 1%nat = Some b /\
    mid_mask [10%Q; (47 * 22050 # 2048)%Q] !! 1%nat = Some m /\
    high_mask [10%Q; (47 * 22050 # 2048)%Q] !! 1%nat = Some h /\
    b = false /\ m = true /\ h = false.
Proof.
  destruct (bands_partition [10%Q; (47 * 22050 # 2048)%Q] 1 (47 * 22050 # 2048)%Q)
    as (b & m & h & Hb & Hm & Hh & _).
  - reflexivity.
  - exists b, m, h. repeat (split; [assumption|]).
    vm_compute in Hb, Hm, Hh. by inversion Hb; inversion Hm; inversion Hh.
Defined.

(** *** The sweep over the frames *)

(** The value [np_linspace_int] holds at position [i]. *)
Definition linspace_at (stop : Z) (num i : nat) : Z :=
  let div := (Z.of_nat num - 1)%Z in
  let k := inject_Z (Z.of_nat i) in
  let y := if 0 <? div then (k * (inject_Z (stop - 0) / inject_Z div))%Q
           else (k * inject_Z (stop - 0))%Q in
  let y := (y + inject_Z 0)%Q in
  let y := if (1 <? Z.of_nat num) && (Z.of_nat i =? div)
           then inject_Z stop else y in
  Qfloor y.

Lemma np_linspace_int_lookup (stop : Z) (num i : nat) :
  (i < num)%nat -> np_linspace_int 0 stop num !! i = Some (linspace_at stop num i).
Proof.
  intros Hi. unfold np_linspace_int.
  change (map ?g (seq 0 num)) with (g <$> seq 0 num).
  rewrite list_lookup_fmap, lookup_seq_lt by exact Hi. reflexivity.
Qed.

Lemma linspace_at_inner (stop : Z) (num i : nat) :
  (Z.of_nat i < Z.of_nat num - 1) ->
  linspace_at stop num i
  = Qfloor (inject_Z (Z.of_nat i)
            * (inject_Z (stop - 0) / inject_Z (Z.of_nat num - 1))
            + inject_Z 0).
Proof.
  intros Hi. unfold linspace_at.
  destruct (Z.ltb_spec 0 (Z.of_nat num - 1)); [|lia].
  destruct (Z.eqb_spec (Z.of_nat i) (Z.of_nat num - 1)); [lia|].
  by rewrite andb_false_r.
Qed.

Lemma linspace_at_last (stop : Z) (num : nat) :
  (2 <= num)%nat -> linspace_at stop num (num - 1) = stop.
Proof.
  intros Hn. unfold linspace_at.
  destruct (Z.ltb_spec 1 (Z.of_nat num)); [|lia].
  destruct (Z.eqb_spec (Z.of_nat (num - 1)) (Z.of_nat num - 1)); [|lia].
  simpl. apply Qfloor_Z.
Qed.

(** X4. With at least one frame and at least two columns, the sampled
    frame indices begin with the first frame, end with the last frame and
    never step back: the columns sweep the whole track from left to right,
    in order. *)
Theorem time_points_sweep (stft_db : spectrogram) (canvas_width : nat) :
  1 <= shape1 stft_db -> (2 <= canvas_width)%nat ->
  time_points stft_db canvas_width !! 0%nat = Some 0 /\
  time_points stft_db canvas_width !! (canvas_width - 1)%nat
    = Some (shape1 stft_db - 1) /\
  (forall (i j : nat) (ti tj : Z),
      (i <= j)%nat ->
      time_points stft_db canvas_width !! i = Some ti ->
      time_points stft_db canvas_width !! j = Some tj ->
      ti <= tj).
Proof.
  intros HF HW. unfold time_points.
  set (stop := shape1 stft_db - 1). assert (Hstop : 0 <= stop) by (unfold stop; lia).
  split; [|split].
  - rewrite np_linspace_int_lookup by lia. f_equal.
    rewrite linspace_at_inner by lia.
    change (inject_Z (Z.of_nat 0)) with 0%Q.
    assert (E : (0 * (inject_Z (stop - 0) / inject_Z (Z.of_nat canvas_width - 1))
                 + inject_Z 0 == inject_Z 0)%Q) by (change (inject_Z 0) with 0%Q; ring).
    rewrite E. apply Qfloor_Z.
  - rewrite np_linspace_int_lookup by lia. f_equal. by apply linspace_at_last.
  - intros i j ti tj Hij Hi Hj.
    assert (Hjw : (j < canvas_width)%nat).
    { apply lookup_lt_Some in Hj. by rewrite np_linspace_int_length in Hj. }
    pose proof (np_linspace_int_range stop canvas_width Hstop) as Hrange.
    pose proof (Forall_lookup_1 _ _ _ _ Hrange Hi) as Hti. cbv beta in Hti.
    rewrite np_linspace_int_lookup in Hi, Hj by lia.
    inversion Hi; inversion Hj; subst ti tj. clear Hi Hj.
    destruct (decide (j = canvas_width - 1)%nat) as [->|Hne].
    + rewrite (linspace_at_last stop canvas_width HW). lia.
    + rewrite !linspace_at_inner by lia.
      apply Qfloor_resp_le.
      assert (Hs : (0 <= inject_Z (stop - 0) / inject_Z (Z.of_nat canvas_width - 1))%Q).
      { apply Qle_shift_div_l.
        - change 0%Q with (inject_Z 0). rewrite <- Zlt_Qlt. lia.
        - rewrite Qmult_0_l. change 0%Q with (inject_Z 0). rewrite <- Zle_Qle. lia. }
      assert (Hk : (inject_Z (Z.of_nat i) <= inject_Z (Z.of_nat j))%Q).
      { rewrite <- Zle_Qle. lia. }
      nra.
Qed.

(** Three frames on five columns: frames 0, 0, 1, 1, 2. *)
Lemma time_points_sweep_witness :
  time_points [[0%Q]; [0%Q]; [0%Q]] 5 !! 0%nat = Some 0 /\
  time_points [[0%Q]; [0%Q]; [0%Q]] 5 !! 4%nat = Some 2.
Proof.
  destruct (time_points_sweep [[0%Q]; [0%Q]; [0%Q]] 5) as (H0 & Hlast & _).
  - vm_compute. discriminate.
  - lia.
  - split; [exact H0 | exact Hlast].
Defined.

(** *** The primitives on the canvas *)

Lemma fold_plus_bounds (lo hi : Q) (xs : list Q) (acc : Q) :
  Forall (fun x => (lo <= x /\ x <= hi)%Q) xs ->
  (acc + inject_Z (Z.of_nat (length xs)) * lo <= fold_left Qplus xs acc /\
   fold_left Qplus xs acc <= acc + inject_Z (Z.of_nat (length xs)) * hi)%Q.
Proof.
  revert acc. induction xs as [|x xs IH]; intros acc Hxs.
  - cbn [length fold_left]. change (inject_Z (Z.of_nat 0)) with 0%Q. lra.
  - apply Forall_cons in Hxs as [Hx Hxs].
    destruct (IH (acc + x)%Q Hxs) as [H1 H2].
    assert (E : (inject_Z (Z.of_nat (length (x :: xs)))
                 == inject_Z (Z.of_nat (length xs)) + 1)%Q).
    { simpl length. rewrite Nat2Z.inj_succ. unfold Z.succ.
      by rewrite inject_Z_plus. }
    cbn [fold_left]. rewrite E. lra.
Qed.

Lemma np_mean_bounds (lo hi : Q) (xs : list Q) :
  xs <> [] -> Forall (fun x => (lo <= x /\ x <= hi)%Q) xs ->
  (lo <= np_mean xs /\ np_mean xs <= hi)%Q.
Proof.
  intros Hne Hxs. unfold np_mean, py_sum.
  destruct (fold_plus_bounds lo hi xs 0 Hxs) as [H1 H2].
  assert (Hn : (0 < inject_Z (Z.of_nat (length xs)))%Q).
  { change 0%Q with (inject_Z 0). rewrite <- Zlt_Qlt.
    destruct xs; [contradiction | simpl length; lia]. }
  split.
  - apply Qle_shift_div_l; [exact Hn|]. lra.
  - apply Qle_shift_div_r; [exact Hn|]. lra.
Qed.

Lemma select_Forall (P : Q -> Prop) (mask : list bool) (frame : list Q) :
  Forall P frame -> Forall P (select mask frame).
Proof.
  revert frame. induction mask as [|b mask IH]; intros [|x frame] H;
    try (by constructor).
  apply Forall_cons in H as [Hx H]. unfold select. simpl.
  rewrite filter_cons. destruct b; simpl.
  - constructor; [exact Hx | by apply IH].
  - by apply IH.
Qed.

Lemma select_nonempty (mask : list bool) (frame : list Q) :
  length mask = length frame -> np_any mask = true -> select mask frame <> [].
Proof.
  revert frame. induction mask as [|b mask IH]; intros [|x frame] Hlen Hany;
    try discriminate.
  unfold select. simpl. rewrite filter_cons. destruct b; simpl; [discriminate|].
  apply IH; [by inversion Hlen | exact Hany].
Qed.

Lemma band_energy_range (mask : list bool) (frame : list Q) :
  length mask = length frame ->
  Forall (fun x => (- 80 <= x /\ x <= 0)%Q) frame ->
  (- 80 <= band_energy mask frame /\ band_energy mask frame <= 0)%Q.
Proof.
  intros Hlen Hframe. unfold band_energy.
  destruct (np_any mask) eqn:Hany; [|lra].
  apply np_mean_bounds; [by apply select_nonempty | by apply select_Forall].
Qed.

Lemma scale_energy_range (canvas_height : Z) (energy : Q) :
  0 <= canvas_height -> (- 80 <= energy)%Q -> (energy <= 0)%Q ->
  (0 <= scale_energy canvas_height energy /\
   scale_energy canvas_height energy <= inject_Z canvas_height * (5 # 11))%Q.
Proof.
  intros HH Hlo Hhi.
  assert (Hh : (0 <= inject_Z canvas_height)%Q).
  { change 0%Q with (inject_Z 0). by rewrite <- Zle_Qle. }
  assert (Hv : (0 <= (energy + 80) / 80 /\ (energy + 80) / 80 <= 1)%Q).
  { split; [apply Qle_shift_div_l | apply Qle_shift_div_r]; lra. }
  assert (Hm : (0 <= py_max 0 ((energy + 80) / 80)
                /\ py_max 0 ((energy + 80) / 80) <= 1)%Q).
  { unfold py_max. destruct (Qltb 0 ((energy + 80) / 80)); lra. }
  unfold scale_energy.
  assert (E : (inject_Z canvas_height / (22 # 10)
               == inject_Z canvas_height * (5 # 11))%Q) by (field; lra).
  rewrite E. nra.
Qed.

(** A primitive that stays on the canvas: vertical, centred, between the
    top and the bottom edge, one pixel wide. *)
Definition on_canvas (canvas_height : Z) (l : line) : Prop :=
  let '(x1, y1, x2, y2) := coords l in
  x1 = x2 /\
  (0 <= y1)%Q /\ (y1 <= y2)%Q /\ (y2 <= inject_Z canvas_height)%Q /\
  (y1 + y2 == inject_Z canvas_height)%Q /\
  width l = 1.

Lemma column_lines_on_canvas (m : masks) (canvas_height : Z) (i : Z)
    (frame : list Q) :
  0 <= canvas_height ->
  length (bass m) = length frame -> length (mid m) = length frame ->
  length (high m) = length frame ->
  Forall (fun x => (- 80 <= x /\ x <= 0)%Q) frame ->
  Forall (on_canvas canvas_height) (column_lines m canvas_height i frame).
Proof.
  intros HH Hb Hm Hh Hframe. unfold column_lines.
  assert (Hc : (0 <= inject_Z canvas_height)%Q).
  { change 0%Q with (inject_Z 0). by rewrite <- Zle_Qle. }
  assert (Hline : forall mask c,
             length mask = length frame ->
             on_canvas canvas_height
               (mkLine (i, (inject_Z canvas_height / 2
                            - scale_energy canvas_height (band_energy mask frame))%Q,
                        i, (inject_Z canvas_height / 2
                            + scale_energy canvas_height (band_energy mask frame))%Q)
                  c 1)).
  { intros mask c Hlen.
    destruct (band_energy_range mask frame Hlen Hframe) as [H1 H2].
    destruct (scale_energy_range canvas_height _ HH H1 H2) as [H3 H4].
    unfold on_canvas. simpl.
    assert (E : (inject_Z canvas_height / 2 == inject_Z canvas_height * (1 # 2))%Q)
      by (field; lra).
    rewrite !E. repeat split; lra. }
  cbv zeta. repeat (apply Forall_cons; split; [by apply Hline|]).
  apply Forall_nil_2.
Qed.

Lemma column_elem (stft_db : spectrogram) (t : Z) (frame : list Q) :
  column stft_db t = Some frame -> frame ∈ stft_db.
Proof.
  unfold column. intros H.
  repeat case_match; try discriminate; by eapply list_elem_of_lookup_2.
Qed.

Lemma waveform_loop_cons_inv (stft_db : spectrogram) (m : masks)
    (canvas_height : Z) (t : Z) (tps : list Z) (i : Z) (ls : list line)
    (k : nat) :
  waveform_loop stft_db m canvas_height i (t :: tps) = Some (ls, k) ->
  exists ls' k',
    waveform_loop stft_db m canvas_height (i + 1) tps = Some (ls', k') /\
    ((shape1 stft_db <= t /\ ls = ls' /\ k = S k') \/
     (t < shape1 stft_db /\
      exists frame, column stft_db t = Some frame /\
                    ls = column_lines m canvas_height i frame ++ ls' /\
                    k = k')).
Proof.
  cbn [waveform_loop]. intros H.
  destruct (Z.leb_spec (shape1 stft_db) t) as [Ht|Ht].
  - destruct (waveform_loop stft_db m canvas_height (i + 1) tps)
      as [[ls' k']|]; [|discriminate].
    exists ls', k'. split; [reflexivity|]. left.
    cbn [mbind option_bind] in H. by inversion H.
  - destruct (column stft_db t) as [frame|]; [|discriminate].
    cbn [mbind option_bind] in H.
    destruct (waveform_loop stft_db m canvas_height (i + 1) tps)
      as [[ls' k']|]; [|discriminate].
    exists ls', k'. split; [reflexivity|]. right. split; [exact Ht|].
    exists frame. cbn [mbind option_bind] in H. by inversion H.
Qed.

Lemma waveform_loop_on_canvas (stft_db : spectrogram) (m : masks)
    (canvas_height : Z) (tps : list Z) (i : Z) (ls : list line) (k : nat) :
  0 <= canvas_height ->
  Forall (fun frame =>
            (length (bass m) = length frame /\ length (mid m) = length frame
             /\ length (high m) = length frame)
            /\ Forall (fun x => (- 80 <= x /\ x <= 0)%Q) frame) stft_db ->
  waveform_loop stft_db m canvas_height i tps = Some (ls, k) ->
  Forall (on_canvas canvas_height) ls.
Proof.
  intros HH Hdb. revert i ls k.
  induction tps as [|t tps IH]; intros i ls k H.
  - inversion H. constructor.
  - apply waveform_loop_cons_inv in H
      as (ls' & k' & Hrest & [(_ & -> & _) | (_ & frame & Ec & -> & _)]).
    + by eapply IH.
    + apply Forall_app_2; [|by eapply IH].
      apply column_elem in Ec.
      destruct (proj1 (Forall_forall _ _) Hdb frame Ec) as [(Hb & Hm & Hh) Hf].
      by apply column_lines_on_canvas.
Qed.

(** X3. When the spectrogram holds levels between -80 dB and 0 dB (what
    [amplitude_to_db] with [ref=np.max] delivers) over the bins of [freqs],
    and the canvas height is not negative, every primitive the function
    returns is a vertical line of width 1, centred on the middle of the
    canvas, that stays between the top edge 0 and the bottom edge
    [canvas_height]. *)
Theorem lines_stay_on_canvas (stft_db : spectrogram) (freqs : list Q)
    (canvas_width : nat) (canvas_height : Z) (ls : list line) :
  0 <= canvas_height ->
  Forall (fun frame =>
            length frame = length freqs
            /\ Forall (fun x => (- 80 <= x /\ x <= 0)%Q) frame) stft_db ->
  _generate_waveform_lines stft_db freqs canvas_width canvas_height = Some ls ->
  Forall (on_canvas canvas_height) ls.
Proof.
  intros HH Hdb H. unfold _generate_waveform_lines in H.
  destruct (waveform_loop stft_db (band_masks freqs) canvas_height 0
              (time_points stft_db canvas_width)) as [[ls' k]|] eqn:E;
    [|discriminate].
  simpl in H. inversion H; subst.
  eapply waveform_loop_on_canvas; [exact HH | | exact E].
  eapply Forall_impl; [exact Hdb|].
  intros frame [Hlen Hf]. split; [|exact Hf].
  unfold band_masks, bass_mask, mid_mask, high_mask. simpl.
  by rewrite !length_map.
Qed.

Definition loud_then_quiet : spectrogram :=
  [[0%Q; (- 10)%Q]; [(- 80)%Q; (- 40)%Q]].

Lemma lines_stay_on_canvas_witness :
  Forall (on_canvas 400)
    (default [] (_generate_waveform_lines loud_then_quiet [100%Q; 1000%Q] 4 400)).
Proof.
  apply (lines_stay_on_canvas loud_then_quiet [100%Q; 1000%Q] 4 400).
  - lia.
  - unfold loud_then_quiet.
    repeat (apply Forall_cons; split; [split; [reflexivity|]|]);
      try apply Forall_nil_2;
      repeat (apply Forall_cons; split;
              [split; vm_compute; discriminate|]);
      apply Forall_nil_2.
  - vm_compute. reflexivity.
Defined.

(** *** What each column shows *)

Lemma waveform_loop_column (stft_db : spectrogram) (m : masks)
    (canvas_height : Z) (tps : list Z) (i : Z) (ls : list line) (k : nat)
    (n : nat) (t : Z) :
  Forall (fun t => 0 <= t < shape1 stft_db) tps ->
  waveform_loop stft_db m canvas_height i tps = Some (ls, k) ->
  tps !! n = Some t ->
  exists frame,
    column stft_db t = Some frame /\
    take 3 (drop (3 * n) ls)
    = column_lines m canvas_height (i + Z.of_nat n) frame.
Proof.
  revert i ls k n.
  induction tps as [|t0 tps IH]; intros i ls k n Htps H Hn; [done|].
  apply Forall_cons in Htps as [Ht0 Htps].
  apply waveform_loop_cons_inv in H
    as (ls' & k' & Hrest & [(Hge & _) | (_ & frame & Ec & -> & _)]); [lia|].
  destruct n as [|n].
  - injection Hn as <-. exists frame. split; [exact Ec|].
    rewrite Z.add_0_r. reflexivity.
  - cbn [lookup list_lookup] in Hn.
    destruct (IH (i + 1) ls' k' n Htps Hrest Hn) as (frame' & Ec' & Hcol).
    exists frame'. split; [exact Ec'|].
    replace (3 * S n)%nat with (S (S (S (3 * n)))) by lia.
    replace (i + Z.of_nat (S n)) with (i + 1 + Z.of_nat n) by lia.
    rewrite <- Hcol. reflexivity.
Qed.

(** X6. Whichever valid frame indices the sampling delivers, the loop
    draws the columns in order, three primitives per column: when every
    sampled index is a frame index, the lines at positions [3i], [3i+1],
    [3i+2] of the result are the bass, mid and high line (colours
    [#0096FF], [#4CBB17], [white]) at [x = i], and their heights are
    computed from the frame at the [i]-th sampled index.  The statement is
    about the loop alone, so it does not depend on how [np.linspace] rounds
    the indices. *)
Theorem column_shows_its_frame (stft_db : spectrogram) (freqs : list Q)
    (canvas_height : Z) (tps : list Z) (ls : list line) (skipped : nat)
    (i : nat) (t : Z) :
  Forall (fun t => 0 <= t < shape1 stft_db) tps ->
  waveform_loop stft_db (band_masks freqs) canvas_height 0 tps
  = Some (ls, skipped) ->
  tps !! i = Some t ->
  exists frame bass_h mid_h high_h,
    column stft_db t = Some frame /\
    bass_h = scale_energy canvas_height (band_energy (bass_mask freqs) frame) /\
    mid_h = scale_energy canvas_height (band_energy (mid_mask freqs) frame) /\
    high_h = scale_energy canvas_height (band_energy (high_mask freqs) frame) /\
    take 3 (drop (3 * i) ls)
    = [ mkLine (Z.of_nat i, (inject_Z canvas_height / 2 - bass_h)%Q,
                Z.of_nat i, (inject_Z canvas_height / 2 + bass_h)%Q)
          "#0096FF" 1;
        mkLine (Z.of_nat i, (inject_Z canvas_height / 2 - mid_h)%Q,
                Z.of_nat i, (inject_Z canvas_height / 2 + mid_h)%Q)
          "#4CBB17" 1;
        mkLine (Z.of_nat i, (inject_Z canvas_height / 2 - high_h)%Q,
                Z.of_nat i, (inject_Z canvas_height / 2 + high_h)%Q)
          "white" 1 ].
Proof.
  intros Hrange E Hi.
  destruct (waveform_loop_column _ _ _ _ _ _ _ _ _ Hrange E Hi)
    as (frame & Ec & Hcol).
  exists frame. do 3 eexists. split; [exact Ec|].
  repeat (split; [reflexivity|]).
  rewrite Hcol, Z.add_0_l. reflexivity.
Qed.

(** Four columns over the two frames, the second half of the canvas on
    the quiet frame. *)
Definition two_by_two : list Z := [0; 0; 1; 1].

Lemma column_shows_its_frame_witness :
  exists frame, column loud_then_quiet 1 = Some frame /\
    fill <$> take 3 (drop (3 * 3)
               (default []
                  (fst <$> waveform_loop loud_then_quiet
                             (band_masks [100%Q; 1000%Q]) 400 0 two_by_two)))
    = ["#0096FF"; "#4CBB17"; "white"].
Proof.
  destruct (waveform_loop loud_then_quiet (band_masks [100%Q; 1000%Q]) 400 0
              two_by_two) as [[ls k]|] eqn:E; [|vm_compute in E; discriminate E].
  destruct (column_shows_its_frame loud_then_quiet [100%Q; 1000%Q] 400
              two_by_two ls k 3 1)
    as (frame & b & m & h & Ec & _ & _ & _ & Hcol).
  - unfold two_by_two.
    repeat (apply Forall_cons; split; [vm_compute; split; [discriminate|reflexivity]|]).
    apply Forall_nil_2.
  - exact E.
  - reflexivity.
  - exists frame. split; [exact Ec|].
    cbn [fmap option_fmap option_map default from_option id fst].
    rewrite Hcol. reflexivity.
Defined.

End Waveform.

(** ** [audio/processor.py]: the tags *)
Module Metadata.

(** [config.RATING_TXXX_DESC] *)
Definition RATING_TXXX_DESC : string := "RATING".

(** The frames [_extract_metadata] reads: a popularimeter frame carries a
    byte [rating], every other frame it looks at carries a list [text]. *)
Inductive frame :=
| Popm (rating : Z)
| Text (text : list string).

(** The exceptions [_extract_metadata] lets through. *)
Inductive exn := AttributeError | IndexError.

Definition raises (A : Type) : Type := exn + A.

Definition bind {A B} (m : raises A) (k : A -> raises B) : raises B :=
  match m with
  | inl e => inl e
  | inr a => k a
  end.

Notation "x <~ m ;; k" := (bind m (fun x => k))
  (at level 100, m at next level, right associativity).

(** Values of the resulting mapping. *)
Inductive value := VInt (n : Z) | VStr (s : string).

(** [int(x)] on a float: truncation towards zero. *)
Definition int_of_float (x : Q) : Z :=
  if Qle_bool 0 x then Qfloor x else Qceiling x.

(** [f.rating] *)
Definition get_rating (f : frame) : raises Z :=
  match f with
  | Popm r => inr r
  | Text _ => inl AttributeError
  end.

(** [f.text[0]] *)
Definition text0 (f : frame) : raises string :=
  match f with
  | Popm _ => inl AttributeError
  | Text [] => inl IndexError
  | Text (s :: _) => inr s
  end.

Section Extract.

(** [int(s)] on a string; [None] is a [ValueError]. *)
Variable py_int : string -> option Z.
(** [str(f)] of a popularimeter frame. *)
Variable popm_str : Z -> string.

(** [str(f)]: a text frame prints its strings joined by NUL. *)
Definition frame_str (f : frame) : string :=
  match f with
  | Popm r => popm_str r
  | Text t => String.concat (String Ascii.zero EmptyString) t
  end.

(** The value of [rating_val] after the [if]/[elif]. *)
Definition rating_val (popm_email : string) (audio_tags : gmap string frame)
    : raises (option Z) :=
  match audio_tags !! ("POPM:" +:+ popm_email) with
  | Some f =>
      r <~ get_rating f ;;
      inr (Some (int_of_float (inject_Z r * 5 / 255)))
  | None =>
      match audio_tags !! ("TXXX:" +:+ RATING_TXXX_DESC) with
      | Some f => inr (py_int (frame_str f))
      | None => inr None
      end
  end.

(** [if key in audio_tags: metadata[name] = read(audio_tags[key])] *)
Definition copy_field (audio_tags : gmap string frame) (key name : string)
    (read : frame -> raises value) (metadata : gmap string value)
    : raises (gmap string value) :=
  match audio_tags !! key with
  | Some f => v <~ read f ;; inr (<[name := v]> metadata)
  | None => inr metadata
  end.

Definition read_text0 (f : frame) : raises value :=
  s <~ text0 f ;; inr (VStr s).

Definition read_str (f : frame) : raises value := inr (VStr (frame_str f)).

(** [_extract_metadata], from the point where the tags have been parsed:
    [audio_tags] are the frames by key, [bitrate] is [audio_tags.info.bitrate]
    when the attribute exists, [popm_email] the setting [POPM_EMAIL]. *)
Definition _extract_metadata (popm_email : string)
    (audio_tags : gmap string frame) (bitrate : option Z)
    : raises (gmap string value) :=
  let metadata : gmap string value := ∅ in
  rv <~ rating_val popm_email audio_tags ;;
  let metadata :=
    match rv with
    | Some n => <["rating" := VInt n]> metadata
    | None => metadata
    end in
  metadata <~ copy_field audio_tags "TCON" "genre" read_text0 metadata ;;
  metadata <~ copy_field audio_tags "TBPM" "bpm" read_text0 metadata ;;
  metadata <~ (match audio_tags !! "COMM::eng" with
               | Some _ => copy_field audio_tags "COMM::eng" "comment" read_text0 metadata
               | None => copy_field audio_tags "COMM" "comment" read_text0 metadata
               end) ;;
  metadata <~ copy_field audio_tags "TPE1" "artist" read_str metadata ;;
  metadata <~ copy_field audio_tags "TIT2" "title" read_str metadata ;;
  inr (match bitrate with
       | Some b => <["bitrate" := VInt (b / 1000)]> metadata
       | None => metadata
       end).

End Extract.

(** *** The rating *)

Lemma int_of_float_ratio (n d : Z) :
  0 <= n -> 0 < d ->
  int_of_float (inject_Z n / inject_Z d) = Z.quot n d.
Proof.
  intros Hn Hd. unfold int_of_float.
  assert (H0 : (0 <= inject_Z n / inject_Z d)%Q).
  { apply Qle_shift_div_l.
    - change 0%Q with (inject_Z 0). by rewrite <- Zlt_Qlt.
    - rewrite Qmult_0_l. change 0%Q with (inject_Z 0). by rewrite <- Zle_Qle. }
  apply Qle_bool_iff in H0. rewrite H0.
  rewrite <- Zdiv_Qdiv. symmetry. apply Z.quot_div_nonneg; lia.
Qed.

Lemma copy_field_other (audio_tags : gmap string frame) (key name : string)
    (read : frame -> raises value) (metadata metadata' : gmap string value)
    (k : string) :
  copy_field audio_tags key name read metadata = inr metadata' ->
  name <> k -> metadata' !! k = metadata !! k.
Proof.
  unfold copy_field. intros H Hne.
  destruct (audio_tags !! key) as [f|]; [|by inversion H].
  destruct (read f) as [e|v]; simpl in H; [discriminate|].
  inversion H; subst. by apply lookup_insert_ne.
Qed.




(** *** The other fields *)

Section ExtractFacts.

Variable py_int : string -> option Z.
Variable popm_str : Z -> string.

(** The mapping after the rating has been looked at. *)
Definition with_rating (rv : option Z) : gmap string value :=
  match rv with
  | Some n => <["rating" := VInt n]> ∅
  | None => ∅
  end.

Lemma with_rating_other (rv : option Z) (k : string) :
  k <> "rating" -> with_rating rv !! k = None.
Proof.
  intros Hk. destruct rv; simpl; [|apply lookup_empty].
  rewrite lookup_insert_ne by done. apply lookup_empty.
Qed.

Lemma copy_field_same (audio_tags : gmap string frame) (key name : string)
    (read : frame -> raises value) (metadata metadata' : gmap string value) :
  copy_field audio_tags key name read metadata = inr metadata' ->
  match audio_tags !! key with
  | Some f => exists v, read f = inr v /\ metadata' !! name = Some v
  | None => metadata' = metadata
  end.
Proof.
  unfold copy_field. intros H.
  destruct (audio_tags !! key) as [f|]; [|by inversion H].
  destruct (read f) as [e|v]; simpl in H; [discriminate|].
  inversion H; subst. exists v. split; [reflexivity|]. apply lookup_insert_eq.
Qed.

Lemma read_text0_inv (f : frame) (v : value) :
  read_text0 f = inr v -> exists s, text0 f = inr s /\ v = VStr s.
Proof.
  unfold read_text0. destruct (text0 f) as [e|s]; simpl; [discriminate|].
  intros H. inversion H. by exists s.
Qed.

(** The comment step: [COMM::eng] when present, else [COMM]. *)
Definition comment_step (audio_tags : gmap string frame)
    (metadata : gmap string value) : raises (gmap string value) :=
  match audio_tags !! "COMM::eng" with
  | Some _ => copy_field audio_tags "COMM::eng" "comment" read_text0 metadata
  | None => copy_field audio_tags "COMM" "comment" read_text0 metadata
  end.

Lemma comment_step_other (audio_tags : gmap string frame)
    (metadata metadata' : gmap string value) (k : string) :
  comment_step audio_tags metadata = inr metadata' ->
  "comment" <> k -> metadata' !! k = metadata !! k.
Proof.
  unfold comment_step. intros H Hk.
  destruct (audio_tags !! "COMM::eng"); by eapply copy_field_other.
Qed.

(** The successive values of [metadata] in a call that returns. *)
Lemma _extract_metadata_inv (popm_email : string)
    (audio_tags : gmap string frame) (bitrate : option Z)
    (metadata : gmap string value) :
  _extract_metadata py_int popm_str popm_email audio_tags bitrate
  = inr metadata ->
  exists rv md1 md2 md3 md4 md5,
    rating_val py_int popm_str popm_email audio_tags = inr rv /\
    copy_field audio_tags "TCON" "genre" read_text0 (with_rating rv) = inr md1 /\
    copy_field audio_tags "TBPM" "bpm" read_text0 md1 = inr md2 /\
    comment_step audio_tags md2 = inr md3 /\
    copy_field audio_tags "TPE1" "artist" (read_str popm_str) md3 = inr md4 /\
    copy_field audio_tags "TIT2" "title" (read_str popm_str) md4 = inr md5 /\
    metadata = match bitrate with
               | Some b => <["bitrate" := VInt (b / 1000)]> md5
               | None => md5
               end.
Proof.
  unfold _extract_metadata. intros H.
  destruct (rating_val py_int popm_str popm_email audio_tags) as [e|rv];
    cbn [bind] in H; [discriminate|].
  exists rv. fold (with_rating rv) in H. fold (comment_step audio_tags) in H.
  repeat match type of H with
  | bind ?m _ = inr _ =>
      let E := fresh "E" in
      destruct m as [?|?md] eqn:E; cbn [bind] in H; [discriminate H|]
  end.
  exists md, md0, md1, md2, md3. repeat (split; [done|]).
  by inversion H.
Qed.

Lemma bitrate_other (bitrate : option Z) (md : gmap string value) (k : string) :
  k <> "bitrate" ->
  match bitrate with
  | Some b => <["bitrate" := VInt (b / 1000)]> md
  | None => md
  end !! k = md !! k.
Proof.
  intros Hk. destruct bitrate; [|reflexivity]. by apply lookup_insert_ne.
Qed.

(** X7. In a call of [_extract_metadata] that returns, the comment is
    the first text of the [COMM::eng] frame whenever the tags hold one,
    whatever a [COMM] frame says; without a [COMM::eng] frame it is the
    first text of the [COMM] frame; with neither the mapping has no
    ["comment"] key. *)
Theorem comment_prefers_eng (popm_email : string)
    (audio_tags : gmap string frame) (bitrate : option Z)
    (metadata : gmap string value) :
  _extract_metadata py_int popm_str popm_email audio_tags bitrate
  = inr metadata ->
  match audio_tags !! "COMM::eng", audio_tags !! "COMM" with
  | Some f, _ | None, Some f =>
      exists s, text0 f = inr s /\ metadata !! "comment" = Some (VStr s)
  | None, None => metadata !! "comment" = None
  end.
Proof.
  intros H.
  apply _extract_metadata_inv in H
    as (rv & md1 & md2 & md3 & md4 & md5 & _ & E1 & E2 & E3 & E4 & E5 & ->).
  rewrite bitrate_other by discriminate.
  rewrite (copy_field_other _ _ _ _ _ _ "comment" E5) by discriminate.
  rewrite (copy_field_other _ _ _ _ _ _ "comment" E4) by discriminate.
  unfold comment_step in E3.
  destruct (audio_tags !! "COMM::eng") as [f|] eqn:Heng.
  - apply copy_field_same in E3. rewrite Heng in E3.
    destruct E3 as (v & Hv & Hmd). apply read_text0_inv in Hv as (s & Hs & ->).
    by exists s.
  - apply copy_field_same in E3.
    destruct (audio_tags !! "COMM") as [f|].
    + destruct E3 as (v & Hv & Hmd).
      apply read_text0_inv in Hv as (s & Hs & ->). by exists s.
    + subst md3.
      rewrite (copy_field_other _ _ _ _ _ _ "comment" E2) by discriminate.
      rewrite (copy_field_other _ _ _ _ _ _ "comment" E1) by discriminate.
      by apply with_rating_other.
Qed.

(** X8. Without a popularimeter frame for the configured address, the
    rating comes from the [TXXX:RATING] frame: it is [int(str(frame))] when
    that parses, and when it does not parse the call neither raises nor
    writes a ["rating"] key. *)
Theorem txxx_rating_fallback (popm_email : string)
    (audio_tags : gmap string frame) (bitrate : option Z) (f : frame) :
  audio_tags !! ("POPM:" +:+ popm_email) = None ->
  audio_tags !! "TXXX:RATING" = Some f ->
  rating_val py_int popm_str popm_email audio_tags
  = inr (py_int (frame_str popm_str f)) /\
  (forall metadata,
      _extract_metadata py_int popm_str popm_email audio_tags bitrate
      = inr metadata ->
      metadata !! "rating" = VInt <$> py_int (frame_str popm_str f)).
Proof.
  intros Hpopm Htxxx.
  assert (Hrv : rating_val py_int popm_str popm_email audio_tags
                = inr (py_int (frame_str popm_str f))).
  { unfold rating_val. rewrite Hpopm.
    change ("TXXX:" +:+ RATING_TXXX_DESC) with "TXXX:RATING".
    by rewrite Htxxx. }
  split; [exact Hrv|]. intros metadata H.
  apply _extract_metadata_inv in H
    as (rv & md1 & md2 & md3 & md4 & md5 & Hrv' & E1 & E2 & E3 & E4 & E5 & ->).
  rewrite Hrv in Hrv'. injection Hrv' as <-.
  rewrite bitrate_other by discriminate.
  rewrite (copy_field_other _ _ _ _ _ _ "rating" E5) by discriminate.
  rewrite (copy_field_other _ _ _ _ _ _ "rating" E4) by discriminate.
  rewrite (comment_step_other _ _ _ "rating" E3) by discriminate.
  rewrite (copy_field_other _ _ _ _ _ _ "rating" E2) by discriminate.
  rewrite (copy_field_other _ _ _ _ _ _ "rating" E1) by discriminate.
  destruct (py_int (frame_str popm_str f)); simpl.
  - apply lookup_insert_eq.
  - apply lookup_empty.
Qed.

(** X9. In a call of [_extract_metadata] that returns, every other field
    depends on its own frame only: ["genre"] and ["bpm"] are the first text
    of the [TCON] and [TBPM] frames, ["artist"] and ["title"] the printed
    [TPE1] and [TIT2] frames, ["bitrate"] the bit rate divided by 1000
    rounding down; a frame that is absent leaves its key out. *)
Theorem fields_follow_frames (popm_email : string)
    (audio_tags : gmap string frame) (bitrate : option Z)
    (metadata : gmap string value) :
  _extract_metadata py_int popm_str popm_email audio_tags bitrate
  = inr metadata ->
  match audio_tags !! "TCON" with
  | Some f => exists s, text0 f = inr s /\ metadata !! "genre" = Some (VStr s)
  | None => metadata !! "genre" = None
  end /\
  match audio_tags !! "TBPM" with
  | Some f => exists s, text0 f = inr s /\ metadata !! "bpm" = Some (VStr s)
  | None => metadata !! "bpm" = None
  end /\
  metadata !! "artist"
  = (fun f => VStr (frame_str popm_str f)) <$> audio_tags !! "TPE1" /\
  metadata !! "title"
  = (fun f => VStr (frame_str popm_str f)) <$> audio_tags !! "TIT2" /\
  metadata !! "bitrate" = (fun b => VInt (b / 1000)) <$> bitrate.
Proof.
  intros H.
  apply _extract_metadata_inv in H
    as (rv & md1 & md2 & md3 & md4 & md5 & _ & E1 & E2 & E3 & E4 & E5 & ->).
  repeat split.
  - rewrite bitrate_other by discriminate.
    rewrite (copy_field_other _ _ _ _ _ _ "genre" E5) by discriminate.
    rewrite (copy_field_other _ _ _ _ _ _ "genre" E4) by discriminate.
    rewrite (comment_step_other _ _ _ "genre" E3) by discriminate.
    rewrite (copy_field_other _ _ _ _ _ _ "genre" E2) by discriminate.
    apply copy_field_same in E1.
    destruct (audio_tags !! "TCON") as [f|].
    + destruct E1 as (v & Hv & Hmd).
      apply read_text0_inv in Hv as (s & Hs & ->). by exists s.
    + subst md1. by apply with_rating_other.
  - rewrite bitrate_other by discriminate.
    rewrite (copy_field_other _ _ _ _ _ _ "bpm" E5) by discriminate.
    rewrite (copy_field_other _ _ _ _ _ _ "bpm" E4) by discriminate.
    rewrite (comment_step_other _ _ _ "bpm" E3) by discriminate.
    apply copy_field_same in E2.
    destruct (audio_tags !! "TBPM") as [f|].
    + destruct E2 as (v & Hv & Hmd).
      apply read_text0_inv in Hv as (s & Hs & ->). by exists s.
    + subst md2.
      rewrite (copy_field_other _ _ _ _ _ _ "bpm" E1) by discriminate.
      by apply with_rating_other.
  - rewrite bitrate_other by discriminate.
    rewrite (copy_field_other _ _ _ _ _ _ "artist" E5) by discriminate.
    apply copy_field_same in E4.
    destruct (audio_tags !! "TPE1") as [f|]; simpl.
    + destruct E4 as (v & Hv & Hmd). unfold read_str in Hv.
      by inversion Hv; subst.
    + subst md4.
      rewrite (comment_step_other _ _ _ "artist" E3) by discriminate.
      rewrite (copy_field_other _ _ _ _ _ _ "artist" E2) by discriminate.
      rewrite (copy_field_other _ _ _ _ _ _ "artist" E1) by discriminate.
      by apply with_rating_other.
  - rewrite bitrate_other by discriminate.
    apply copy_field_same in E5.
    destruct (audio_tags !! "TIT2") as [f|]; simpl.
    + destruct E5 as (v & Hv & Hmd). unfold read_str in Hv.
      by inversion Hv; subst.
    + subst md5.
      rewrite (copy_field_other _ _ _ _ _ _ "title" E4) by discriminate.
      rewrite (comment_step_other _ _ _ "title" E3) by discriminate.
      rewrite (copy_field_other _ _ _ _ _ _ "title" E2) by discriminate.
      rewrite (copy_field_other _ _ _ _ _ _ "title" E1) by discriminate.
      by apply with_rating_other.
  - destruct bitrate as [b|]; simpl.
    + apply lookup_insert_eq.
    + rewrite (copy_field_other _ _ _ _ _ _ "bitrate" E5) by discriminate.
      rewrite (copy_field_other _ _ _ _ _ _ "bitrate" E4) by discriminate.
      rewrite (comment_step_other _ _ _ "bitrate" E3) by discriminate.
      rewrite (copy_field_other _ _ _ _ _ _ "bitrate" E2) by discriminate.
      rewrite (copy_field_other _ _ _ _ _ _ "bitrate" E1) by discriminate.
      by apply with_rating_other.
Qed.

(** A frame the function can read: a popularimeter frame under a
    [POPM:] key, a text frame with at least one string elsewhere. *)
Definition readable (popm_email : string) (key : string) (f : frame) : Prop :=
  if decide (key = "POPM:" +:+ popm_email)
  then exists r, f = Popm r
  else exists s rest, f = Text (s :: rest).

Lemma copy_text0_returns (audio_tags : gmap string frame) (key name : string)
    (metadata : gmap string value) :
  (forall f, audio_tags !! key = Some f -> exists s rest, f = Text (s :: rest)) ->
  exists md', copy_field audio_tags key name read_text0 metadata = inr md'.
Proof.
  intros Hok. unfold copy_field.
  destruct (audio_tags !! key) as [f|]; [|by eexists].
  destruct (Hok f eq_refl) as (s & rest & ->). by eexists.
Qed.

Lemma copy_str_returns (audio_tags : gmap string frame) (key name : string)
    (metadata : gmap string value) :
  exists md', copy_field audio_tags key name (read_str popm_str) metadata
              = inr md'.
Proof.
  unfold copy_field. destruct (audio_tags !! key) as [f|]; by eexists.
Qed.

(** X10. When every frame of the tags is readable, [_extract_metadata]
    returns a mapping: it raises nothing. *)
Theorem readable_tags_are_extracted (popm_email : string)
    (audio_tags : gmap string frame) (bitrate : option Z) :
  map_Forall (readable popm_email) audio_tags ->
  exists metadata,
    _extract_metadata py_int popm_str popm_email audio_tags bitrate
    = inr metadata.
Proof.
  intros Hok.
  assert (Htext : forall key f,
             key <> "POPM:" +:+ popm_email ->
             audio_tags !! key = Some f -> exists s rest, f = Text (s :: rest)).
  { intros key f Hkey Hf. pose proof (Hok key f Hf) as H.
    unfold readable in H. by destruct (decide _). }
  assert (Hrv : exists rv, rating_val py_int popm_str popm_email audio_tags
                           = inr rv).
  { unfold rating_val.
    destruct (audio_tags !! ("POPM:" +:+ popm_email)) as [f|] eqn:Hf.
    - pose proof (Hok _ f Hf) as H. unfold readable in H.
      destruct (decide _); [|done]. destruct H as [r ->]. by eexists.
    - destruct (audio_tags !! ("TXXX:" +:+ RATING_TXXX_DESC)); by eexists. }
  destruct Hrv as [rv Hrv].
  unfold _extract_metadata. rewrite Hrv. cbn [bind].
  fold (with_rating rv). fold (comment_step audio_tags).
  destruct (copy_text0_returns audio_tags "TCON" "genre" (with_rating rv))
    as [md1 E1]; [intros f; by apply Htext|].
  rewrite E1. cbn [bind].
  destruct (copy_text0_returns audio_tags "TBPM" "bpm" md1)
    as [md2 E2]; [intros f; by apply Htext|].
  rewrite E2. cbn [bind].
  assert (E3 : exists md3, comment_step audio_tags md2 = inr md3).
  { unfold comment_step. destruct (audio_tags !! "COMM::eng");
      apply copy_text0_returns; intros f'; by apply Htext. }
  destruct E3 as [md3 E3]. unfold comment_step in E3. rewrite E3. cbn [bind].
  destruct (copy_str_returns audio_tags "TPE1" "artist" md3) as [md4 E4].
  rewrite E4. cbn [bind].
  destruct (copy_str_returns audio_tags "TIT2" "title" md4) as [md5 E5].
  rewrite E5. cbn [bind]. by eexists.
Qed.

(** X11. A genre frame that carries no text makes [_extract_metadata]
    raise: [text[0]] fails with an [IndexError], or the rating has failed
    before it, and the function catches neither. *)
Theorem empty_genre_frame_raises (popm_email : string)
    (audio_tags : gmap string frame) (bitrate : option Z) :
  audio_tags !! "TCON" = Some (Text []) ->
  exists e,
    _extract_metadata py_int popm_str popm_email audio_tags bitrate = inl e /\
    (e = IndexError \/
     rating_val py_int popm_str popm_email audio_tags = inl e).
Proof.
  intros Hgenre. unfold _extract_metadata.
  destruct (rating_val py_int popm_str popm_email audio_tags) as [e|rv].
  - exists e. split; [reflexivity | by right].
  - exists IndexError. cbn [bind]. unfold copy_field at 1.
    rewrite Hgenre. split; [reflexivity | by left].
Qed.

End ExtractFacts.

(** A track tagged by another tool: a comment in two languages, a rating
    written as text. *)
Definition foreign_tags : gmap string frame :=
  <["COMM::eng" := Text ["peak time"]]>
    (<["COMM" := Text ["Hauptzeit"]]>
       (<["TXXX:RATING" := Text ["4"]]>
          (<["TPE1" := Text ["Artist"]]> ∅))).

Definition digit_int (s : string) : option Z :=
  if decide (s = "4") then Some 4 else None.

Definition returns {A} (m : raises A) : bool :=
  match m with
  | inr _ => true
  | inl _ => false
  end.

Lemma comment_prefers_eng_witness :
  exists metadata,
    _extract_metadata digit_int (fun _ => "") "changeme@pulzwave.com"
      foreign_tags (Some 320000) = inr metadata /\
    metadata !! "comment" = Some (VStr "peak time").
Proof.
  assert (R : returns (_extract_metadata digit_int (fun _ => "")
                         "changeme@pulzwave.com" foreign_tags (Some 320000))
              = true) by (vm_compute; reflexivity).
  destruct (_extract_metadata digit_int (fun _ => "") "changeme@pulzwave.com"
              foreign_tags (Some 320000)) as [e|metadata] eqn:E.
  - discriminate R.
  - exists metadata. split; [reflexivity|].
    pose proof (comment_prefers_eng digit_int (fun _ => "")
                  "changeme@pulzwave.com" foreign_tags (Some 320000)
                  metadata E) as H.
    assert (Heng : foreign_tags !! "COMM::eng" = Some (Text ["peak time"]))
      by (vm_compute; reflexivity).
    rewrite Heng in H. destruct H as (s & Hs & Hc).
    injection Hs as <-. exact Hc.
Defined.

Lemma txxx_rating_fallback_witness :
  rating_val digit_int (fun _ => "") "changeme@pulzwave.com" foreign_tags
  = inr (Some 4).
Proof.
  apply (txxx_rating_fallback digit_int (fun _ => "")
           "changeme@pulzwave.com" foreign_tags None (Text ["4"])).
  - reflexivity.
  - reflexivity.
Defined.

Lemma fields_follow_frames_witness :
  exists metadata,
    _extract_metadata digit_int (fun _ => "") "changeme@pulzwave.com"
      foreign_tags (Some 320000) = inr metadata /\
    metadata !! "bitrate" = Some (VInt 320) /\
    metadata !! "genre" = None.
Proof.
  assert (R : returns (_extract_metadata digit_int (fun _ => "")
                         "changeme@pulzwave.com" foreign_tags (Some 320000))
              = true) by (vm_compute; reflexivity).
  destruct (_extract_metadata digit_int (fun _ => "") "changeme@pulzwave.com"
              foreign_tags (Some 320000)) as [e|metadata] eqn:E.
  - discriminate R.
  - exists metadata. split; [reflexivity|].
    destruct (fields_follow_frames digit_int (fun _ => "")
                "changeme@pulzwave.com" foreign_tags (Some 320000)
                metadata E) as (Hg & _ & _ & _ & Hb).
    assert (Hno : foreign_tags !! "TCON" = None) by (vm_compute; reflexivity).
    rewrite Hno in Hg. split; [exact Hb | exact Hg].
Defined.

Lemma readable_tags_are_extracted_witness :
  exists metadata,
    _extract_metadata digit_int (fun _ => "") "changeme@pulzwave.com"
      foreign_tags (Some 320000) = inr metadata.
Proof.
  apply (readable_tags_are_extracted digit_int (fun _ => "")
           "changeme@pulzwave.com" foreign_tags (Some 320000)).
  unfold foreign_tags.
  repeat (apply map_Forall_insert_2;
          [unfold readable; simpl; by do 2 eexists|]).
  apply map_Forall_empty.
Defined.

Lemma empty_genre_frame_raises_witness :
  _extract_metadata digit_int (fun _ => "") "changeme@pulzwave.com"
    (<["TCON" := Text []]> foreign_tags) None = inl IndexError.
Proof.
  destruct (empty_genre_frame_raises digit_int (fun _ => "")
              "changeme@pulzwave.com" (<["TCON" := Text []]> foreign_tags) None)
    as (e & He & _).
  - reflexivity.
  - rewrite He. vm_compute in He. by injection He as <-.
Defined.

(** ** [audio/metadata.py]: writing the tags, and
       [AudioFileManager.is_file_processed] *)

(** [config.CUSTOM_ID3_VALUE] *)
Definition CUSTOM_ID3_VALUE : string := "true".

(** [str(n)] for an [int]. *)
Definition py_str (n : Z) : string := NilZero.string_of_int (Z.to_int n).

(** [audio.add(frame)]: the frame is stored under its hash key
    ([TXXX:desc], [POPM:email], [TCON]) and replaces a frame stored there. *)
Definition add (key : string) (f : frame) (audio : gmap string frame)
    : gmap string frame :=
  <[key := f]> audio.

(** [audio.delall(key)]: the frame stored under [key] when there is one,
    otherwise every frame whose key starts with [key + ":"]. *)
Definition delall (key : string) (audio : gmap string frame)
    : gmap string frame :=
  match audio !! key with
  | Some _ => delete key audio
  | None => filter (fun kv => String.prefix (key +:+ ":") kv.1 = false) audio
  end.

(** [POPM(email=popm_email, rating=popm_rating, count=0)]: the rating of
    a popularimeter frame is one byte.  For any other number mutagen raises
    [ValueError], when the frame is built or at the latest when its bytes
    are produced, in both cases before the file is touched. *)
Definition POPM (popm_rating : Z) : option frame :=
  if (0 <=? popm_rating) && (popm_rating <=? 255)
  then Some (Popm popm_rating) else None.

(** [if rating is not None and rating > 0: ...]; [None] is the
    exception. *)
Definition write_rating (popm_email : string) (rating : option Z)
    (audio : gmap string frame) : option (gmap string frame) :=
  match rating with
  | Some rating =>
      if 0 <? rating then
        let audio := delall "POPM" audio in
        let audio := delall ("TXXX:" +:+ RATING_TXXX_DESC) audio in
        let popm_rating := int_of_float (inject_Z rating * 255 / 5) in
        f ← POPM popm_rating;
        let audio := add ("POPM:" +:+ popm_email) f audio in
        Some (add ("TXXX:" +:+ RATING_TXXX_DESC) (Text [py_str rating]) audio)
      else Some audio
  | None => Some audio
  end.

(** [if genre: ...]: [None] and the empty string are false. *)
Definition write_genre (genre : option string) (audio : gmap string frame)
    : gmap string frame :=
  match genre with
  | Some g =>
      if decide (g = "") then audio
      else add "TCON" (Text [g]) (delall "TCON" audio)
  | None => audio
  end.

(** The body of the [try] of [save_metadata] up to [audio.save]: the
    frames that are written, from the frames [audio] that [ID3(filepath)]
    has loaded (none for a file without header); [None] when an exception
    ends the block before anything is written. *)
Definition frames_to_save (custom_id3_tag popm_email : string)
    (rating : option Z) (genre : option string) (audio : gmap string frame)
    : option (gmap string frame) :=
  let audio := add ("TXXX:" +:+ custom_id3_tag) (Text [CUSTOM_ID3_VALUE]) audio in
  audio ← write_rating popm_email rating audio;
  Some (write_genre genre audio).

(** [save_metadata]: the frames of the file after the call.  When the
    block raises, the function logs the error and returns [False], and the
    file is as it was. *)
Definition save_metadata (custom_id3_tag popm_email : string)
    (rating : option Z) (genre : option string) (audio : gmap string frame)
    : gmap string frame :=
  default audio (frames_to_save custom_id3_tag popm_email rating genre audio).

(** The ratings the block can store: none, one that is not positive
    (nothing is written for it), or one up to 5. *)
Definition storable (rating : option Z) : Prop :=
  match rating with
  | Some r => r <= 5
  | None => True
  end.

(** [is_file_processed]: [tags] is [audio.tags], [None] for a file without
    header, where the membership test raises and the function answers
    [False] like for every other exception. *)
Definition is_file_processed (custom_id3_tag : string)
    (tags : option (gmap string frame)) : bool :=
  match tags with
  | None => false
  | Some tags =>
      match tags !! ("TXXX:" +:+ custom_id3_tag) with
      | None => false
      | Some f =>
          match text0 f with
          | inr s => bool_decide (s = CUSTOM_ID3_VALUE)
          | inl _ => false
          end
      end
  end.

Lemma prefix_app_true (a b k : string) :
  String.prefix (a +:+ b) k = true -> String.prefix a k = true.
Proof.
  revert k. induction a as [|c a IH]; intros k H.
  - by destruct k.
  - destruct k as [|c' k]; simpl in *; [discriminate|].
    destruct (Ascii.ascii_dec c c'); [by apply IH | discriminate].
Qed.

Lemma prefix_refl (k : string) : String.prefix k k = true.
Proof.
  induction k as [|c k IH]; simpl; [reflexivity|].
  by destruct (Ascii.ascii_dec c c).
Qed.

Lemma not_prefix_app (a b k : string) :
  String.prefix a k = false -> String.prefix (a +:+ b) k = false.
Proof.
  intros H. destruct (String.prefix (a +:+ b) k) eqn:E; [|reflexivity].
  apply prefix_app_true in E. congruence.
Qed.

Lemma not_prefix_ne (a k : string) : String.prefix a k = false -> k <> a.
Proof.
  intros H ->. by rewrite prefix_refl in H.
Qed.

Lemma prefix_cons_inv (a : Ascii.ascii) (s k : string) :
  String.prefix (String a s) k = true ->
  exists k', k = String a k' /\ String.prefix s k' = true.
Proof.
  destruct k as [|c k]; [discriminate|]. cbn [String.prefix].
  destruct (Ascii.ascii_dec a c) as [->|]; [|discriminate]. eauto.
Qed.

Lemma delall_other (key k : string) (audio : gmap string frame) :
  k <> key -> String.prefix (key +:+ ":") k = false ->
  delall key audio !! k = audio !! k.
Proof.
  intros Hne Hpre. unfold delall. destruct (audio !! key).
  - by apply lookup_delete_ne.
  - destruct (audio !! k) as [f|] eqn:Hk.
    + by apply map_lookup_filter_Some.
    + apply map_lookup_filter_None. by left.
Qed.

Lemma delall_family (key k : string) (audio : gmap string frame) :
  audio !! key = None -> String.prefix (key +:+ ":") k = true ->
  delall key audio !! k = None.
Proof.
  intros Hkey Hpre. unfold delall. rewrite Hkey.
  apply map_lookup_filter_None. right. intros f _. simpl. congruence.
Qed.

Lemma popm_byte (rating : Z) :
  0 <= rating -> int_of_float (inject_Z rating * 255 / 5) = 51 * rating.
Proof.
  intros Hr.
  change (inject_Z rating * 255)%Q with (inject_Z (rating * 255)).
  change 5%Q with (inject_Z 5).
  rewrite int_of_float_ratio by lia.
  replace (rating * 255) with (51 * rating * 5) by lia.
  apply Z.quot_mul. lia.
Qed.

(** The rating branch with a rating from 1 to 5. *)
Lemma write_rating_stored (popm_email : string) (rating : Z)
    (audio : gmap string frame) :
  1 <= rating <= 5 ->
  write_rating popm_email (Some rating) audio
  = Some (add "TXXX:RATING" (Text [py_str rating])
            (add ("POPM:" +:+ popm_email) (Popm (51 * rating))
               (delall "TXXX:RATING" (delall "POPM" audio)))).
Proof.
  intros Hr. unfold write_rating.
  assert (Hpos : (0 <? rating) = true) by (apply Z.ltb_lt; lia).
  rewrite Hpos. cbv zeta. rewrite popm_byte by lia. unfold POPM.
  assert (Hb : (0 <=? 51 * rating) && (51 * rating <=? 255) = true).
  { apply andb_true_iff. split; apply Z.leb_le; lia. }
  rewrite Hb. reflexivity.
Qed.

(** The rating branch with a rating above 5: the byte does not exist. *)
Lemma write_rating_raises (popm_email : string) (rating : Z)
    (audio : gmap string frame) :
  6 <= rating -> write_rating popm_email (Some rating) audio = None.
Proof.
  intros Hr. unfold write_rating.
  assert (Hpos : (0 <? rating) = true) by (apply Z.ltb_lt; lia).
  rewrite Hpos. cbv zeta. rewrite popm_byte by lia. unfold POPM.
  assert (Hb : (51 * rating <=? 255) = false) by (apply Z.leb_gt; lia).
  rewrite Hb, andb_false_r. reflexivity.
Qed.

(** A rating that is absent or not positive leaves the frames alone. *)
Lemma write_rating_skipped (popm_email : string) (rating : option Z)
    (audio : gmap string frame) :
  match rating with Some r => r <= 0 | None => True end ->
  write_rating popm_email rating audio = Some audio.
Proof.
  intros Hr. unfold write_rating. destruct rating as [r|]; [|reflexivity].
  assert (Hpos : (0 <? r) = false) by (apply Z.ltb_ge; lia).
  by rewrite Hpos.
Qed.

(** The three cases of the rating branch. *)
Lemma write_rating_cases (popm_email : string) (rating : option Z)
    (audio : gmap string frame) :
  write_rating popm_email rating audio = Some audio \/
  (exists r, rating = Some r /\ 1 <= r <= 5 /\
             write_rating popm_email rating audio
             = Some (add "TXXX:RATING" (Text [py_str r])
                       (add ("POPM:" +:+ popm_email) (Popm (51 * r))
                          (delall "TXXX:RATING" (delall "POPM" audio))))) \/
  (exists r, rating = Some r /\ 6 <= r /\
             write_rating popm_email rating audio = None).
Proof.
  destruct rating as [r|]; [|by left].
  destruct (Z_le_gt_dec r 0); [left; by apply write_rating_skipped|].
  destruct (Z_le_gt_dec r 5).
  - right; left. exists r. split; [reflexivity|]. split; [lia|].
    apply write_rating_stored. lia.
  - right; right. exists r. split; [reflexivity|]. split; [lia|].
    apply write_rating_raises. lia.
Qed.

Lemma write_rating_other (popm_email : string) (rating : option Z)
    (audio audio' : gmap string frame) (k : string) :
  write_rating popm_email rating audio = Some audio' ->
  String.prefix "POPM" k = false -> String.prefix "TXXX:RATING" k = false ->
  audio' !! k = audio !! k.
Proof.
  intros H Hp Ht.
  destruct (write_rating_cases popm_email rating audio)
    as [E | [(r & -> & Hr & E) | (r & -> & Hr & E)]];
    rewrite E in H; [by injection H as <- | | discriminate H].
  injection H as <-. unfold add.
  rewrite lookup_insert_ne by (symmetry; by apply not_prefix_ne).
  rewrite lookup_insert_ne.
  2:{ intros <-. simpl in Hp. discriminate Hp. }
  rewrite delall_other;
    [| by apply not_prefix_ne | by apply (not_prefix_app "TXXX:RATING" ":")].
  apply delall_other;
    [by apply not_prefix_ne | by apply (not_prefix_app "POPM" ":")].
Qed.

Lemma write_rating_storable (popm_email : string) (rating : option Z)
    (audio : gmap string frame) :
  storable rating -> is_Some (write_rating popm_email rating audio).
Proof.
  intros Hs.
  destruct (write_rating_cases popm_email rating audio)
    as [E | [(r & -> & Hr & E) | (r & -> & Hr & E)]];
    rewrite ?E; try (by eexists).
  simpl in Hs. lia.
Qed.

Lemma write_genre_other (genre : option string) (audio : gmap string frame)
    (k : string) :
  String.prefix "TCON" k = false ->
  write_genre genre audio !! k = audio !! k.
Proof.
  intros Hp. unfold write_genre. destruct genre as [g|]; [|reflexivity].
  destruct (decide (g = "")); [reflexivity|]. unfold add.
  rewrite lookup_insert_ne by (symmetry; by apply not_prefix_ne).
  apply delall_other;
    [by apply not_prefix_ne | by apply (not_prefix_app "TCON" ":")].
Qed.

(** What [save_metadata] leaves in the file when the block does not
    raise. *)
Lemma save_metadata_written (custom_id3_tag popm_email : string)
    (rating : option Z) (genre : option string)
    (audio rated : gmap string frame) :
  write_rating popm_email rating
    (add ("TXXX:" +:+ custom_id3_tag) (Text [CUSTOM_ID3_VALUE]) audio)
  = Some rated ->
  save_metadata custom_id3_tag popm_email rating genre audio
  = write_genre genre rated.
Proof.
  intros H. unfold save_metadata, frames_to_save. cbv zeta.
  by rewrite H.
Qed.

(** X12. A file that [save_metadata] has written is recognised by
    [is_file_processed] under the same tag name, whatever the genre and
    whatever frames it had before, provided the rating can be stored (it
    is absent or at most 5) and the tag name is neither [RATING] nor
    starts with [RATING:] (names which the rating frames of the same call
    would delete or overwrite).  With a rating from 6 on the call fails
    and the file is as it was, marked or not. *)
Theorem saved_file_is_processed (custom_id3_tag popm_email : string)
    (rating : option Z) (genre : option string) (audio : gmap string frame) :
  custom_id3_tag <> "RATING" ->
  String.prefix "RATING:" custom_id3_tag = false ->
  (storable rating ->
   is_file_processed custom_id3_tag
     (Some (save_metadata custom_id3_tag popm_email rating genre audio))
   = true) /\
  (forall r, rating = Some r -> 6 <= r ->
   frames_to_save custom_id3_tag popm_email rating genre audio = None /\
   save_metadata custom_id3_tag popm_email rating genre audio = audio).
Proof.
  intros Hne Hpre. split.
  - intros Hs.
    destruct (write_rating_storable popm_email rating
                (add ("TXXX:" +:+ custom_id3_tag) (Text [CUSTOM_ID3_VALUE]) audio)
                Hs) as [rated Hrated].
    rewrite (save_metadata_written _ _ _ _ _ _ Hrated).
    unfold is_file_processed. rewrite write_genre_other by reflexivity.
    assert (Hmark : rated !! ("TXXX:" +:+ custom_id3_tag)
                    = Some (Text [CUSTOM_ID3_VALUE])).
    { destruct (write_rating_cases popm_email rating
                  (add ("TXXX:" +:+ custom_id3_tag) (Text [CUSTOM_ID3_VALUE]) audio))
        as [E | [(r & -> & Hr & E) | (r & -> & Hr & E)]];
        rewrite E in Hrated; [| |discriminate Hrated];
        injection Hrated as <-; unfold add.
      - apply lookup_insert_eq.
      - rewrite lookup_insert_ne by (intros H; injection H as H; by apply Hne).
        rewrite lookup_insert_ne by discriminate.
        rewrite delall_other;
          [| intros H; injection H as H; by apply Hne | exact Hpre].
        rewrite delall_other; [| discriminate | reflexivity].
        apply lookup_insert_eq. }
    rewrite Hmark. reflexivity.
  - intros r -> Hr. unfold save_metadata, frames_to_save. cbv zeta.
    rewrite write_rating_raises by exact Hr. split; reflexivity.
Qed.

Lemma saved_file_is_processed_witness :
  is_file_processed "PULZWAVE_APPROVED"
    (Some (save_metadata "PULZWAVE_APPROVED" "changeme@pulzwave.com"
             (Some 4) (Some "Tech House") foreign_tags)) = true /\
  save_metadata "PULZWAVE_APPROVED" "changeme@pulzwave.com"
    (Some 6) (Some "Tech House") foreign_tags = foreign_tags.
Proof.
  split.
  - apply (saved_file_is_processed "PULZWAVE_APPROVED" "changeme@pulzwave.com"
             (Some 4) (Some "Tech House") foreign_tags).
    + discriminate.
    + reflexivity.
    + simpl. lia.
  - apply (saved_file_is_processed "PULZWAVE_APPROVED" "changeme@pulzwave.com"
             (Some 6) (Some "Tech House") foreign_tags) with (r := 6).
    + discriminate.
    + reflexivity.
    + reflexivity.
    + lia.
Defined.

(** X13. A rating from 1 to 5 that [save_metadata] writes is the rating
    [_extract_metadata] reads back for the same address, whatever frames
    the file had before and whatever the genre: the byte written is
    [51 * rating], and both the popularimeter frame and the [TXXX:RATING]
    frame (holding [str(rating)]) are in the saved tags. *)
Theorem rating_round_trip (py_int : string -> option Z)
    (popm_str : Z -> string) (custom_id3_tag popm_email : string)
    (rating : Z) (genre : option string) (audio : gmap string frame) :
  1 <= rating <= 5 ->
  let saved := save_metadata custom_id3_tag popm_email (Some rating) genre audio in
  saved !! ("POPM:" +:+ popm_email) = Some (Popm (51 * rating)) /\
  saved !! "TXXX:RATING" = Some (Text [py_str rating]) /\
  rating_val py_int popm_str popm_email saved = inr (Some rating).
Proof.
  intros Hr saved.
  assert (Esaved : saved = write_genre genre
                     (add "TXXX:RATING" (Text [py_str rating])
                        (add ("POPM:" +:+ popm_email) (Popm (51 * rating))
                           (delall "TXXX:RATING"
                              (delall "POPM"
                                 (add ("TXXX:" +:+ custom_id3_tag)
                                    (Text [CUSTOM_ID3_VALUE]) audio)))))).
  { unfold saved. apply save_metadata_written.
    by apply write_rating_stored. }
  assert (Hpopm : saved !! ("POPM:" +:+ popm_email) = Some (Popm (51 * rating))).
  { rewrite Esaved. rewrite write_genre_other by reflexivity. unfold add.
    rewrite lookup_insert_ne by discriminate.
    apply lookup_insert_eq. }
  assert (Htxxx : saved !! "TXXX:RATING" = Some (Text [py_str rating])).
  { rewrite Esaved. rewrite write_genre_other by reflexivity. unfold add.
    apply lookup_insert_eq. }
  split; [exact Hpopm|]. split; [exact Htxxx|].
  unfold rating_val. rewrite Hpopm. cbn [get_rating bind].
  change (inject_Z (51 * rating) * 5)%Q with (inject_Z (51 * rating * 5)).
  change 255%Q with (inject_Z 255).
  rewrite int_of_float_ratio by lia.
  replace (51 * rating * 5) with (rating * 255) by lia.
  rewrite Z.quot_mul by lia. reflexivity.
Qed.

Lemma rating_round_trip_witness :
  rating_val digit_int (fun _ => "") "changeme@pulzwave.com"
    (save_metadata "PULZWAVE_APPROVED" "changeme@pulzwave.com"
       (Some 2) None foreign_tags) = inr (Some 2).
Proof.
  apply (rating_round_trip digit_int (fun _ => "") "PULZWAVE_APPROVED"
           "changeme@pulzwave.com" 2 None foreign_tags).
  lia.
Defined.

(** X14. After [save_metadata] has written a rating from 1 to 5, the
    tags hold one popularimeter frame only, the one for the configured
    address: the ratings that other addresses had left in the file are
    gone. (No real frame is stored under the bare key [POPM].) *)
Theorem one_popularimeter_after_save (custom_id3_tag popm_email : string)
    (rating : Z) (genre : option string) (audio : gmap string frame)
    (k : string) :
  1 <= rating <= 5 ->
  audio !! "POPM" = None ->
  String.prefix "POPM:" k = true ->
  k <> "POPM:" +:+ popm_email ->
  save_metadata custom_id3_tag popm_email (Some rating) genre audio !! k = None.
Proof.
  intros Hr Hbare Hpre Hk.
  assert (HP : String.prefix "POPM" k = true)
    by (by apply (prefix_app_true "POPM" ":")).
  apply prefix_cons_inv in HP as (k' & -> & _).
  rewrite (save_metadata_written _ _ _ _ _ _
             (write_rating_stored popm_email rating _ Hr)).
  rewrite write_genre_other by reflexivity.
  unfold add at 1 2.
  rewrite lookup_insert_ne by discriminate.
  rewrite lookup_insert_ne by congruence.
  rewrite delall_other.
  2:{ discriminate. }
  2:{ reflexivity. }
  apply delall_family; [|exact Hpre].
  unfold add. by rewrite lookup_insert_ne by discriminate.
Qed.

Definition rated_elsewhere : gmap string frame :=
  <["POPM:Windows Media Player 9 Series" := Popm 196]> foreign_tags.

Lemma one_popularimeter_after_save_witness :
  rated_elsewhere !! "POPM:Windows Media Player 9 Series" = Some (Popm 196) /\
  save_metadata "PULZWAVE_APPROVED" "changeme@pulzwave.com" (Some 2) None
    rated_elsewhere !! "POPM:Windows Media Player 9 Series" = None.
Proof.
  split; [vm_compute; reflexivity|].
  apply one_popularimeter_after_save.
  - lia.
  - vm_compute. reflexivity.
  - reflexivity.
  - discriminate.
Defined.

(** X15. Every frame outside the families the call writes is kept: a key
    that is not the marker and does not start with [POPM], [TXXX:RATING]
    or [TCON] holds after [save_metadata] what it held before; so artist,
    title, tempo and comments survive the save. *)
Theorem save_keeps_other_frames (custom_id3_tag popm_email : string)
    (rating : option Z) (genre : option string) (audio : gmap string frame)
    (k : string) :
  k <> "TXXX:" +:+ custom_id3_tag ->
  String.prefix "POPM" k = false ->
  String.prefix "TXXX:RATING" k = false ->
  String.prefix "TCON" k = false ->
  save_metadata custom_id3_tag popm_email rating genre audio !! k = audio !! k.
Proof.
  intros Hmark Hp Ht Hg.
  destruct (write_rating popm_email rating
              (add ("TXXX:" +:+ custom_id3_tag) (Text [CUSTOM_ID3_VALUE]) audio))
    as [rated|] eqn:E.
  2:{ unfold save_metadata, frames_to_save. cbv zeta. by rewrite E. }
  rewrite (save_metadata_written _ _ _ _ _ _ E).
  rewrite write_genre_other by exact Hg.
  rewrite (write_rating_other _ _ _ _ _ E) by assumption.
  unfold add. by apply lookup_insert_ne.
Qed.

Lemma save_keeps_other_frames_witness :
  save_metadata "PULZWAVE_APPROVED" "changeme@pulzwave.com" (Some 4)
    (Some "Tech House") foreign_tags !! "COMM::eng"
  = foreign_tags !! "COMM::eng".
Proof.
  apply save_keeps_other_frames.
  - discriminate.
  - reflexivity.
  - reflexivity.
  - reflexivity.
Defined.

(** X16. What [save_metadata] does to the genre frame when the rating
    can be stored: a genre that is not empty is in the saved tags as the
    one text of the [TCON] frame, whatever [TCON] frame the file had; with
    no genre, or the empty string, the [TCON] frame is what it was.  (This
    is about the frames handed to [audio.save]; when the file is loaded
    again mutagen rewrites genre texts such as [(17)] or [17] to the genre
    name, which is outside this statement.) *)
Theorem genre_is_written (custom_id3_tag popm_email : string)
    (rating : option Z) (genre : option string) (audio : gmap string frame) :
  storable rating ->
  let saved := save_metadata custom_id3_tag popm_email rating genre audio in
  (forall g, genre = Some g -> g <> "" -> saved !! "TCON" = Some (Text [g])) /\
  (genre = None \/ genre = Some "" -> saved !! "TCON" = audio !! "TCON").
Proof.
  intros Hs saved.
  destruct (write_rating_storable popm_email rating
              (add ("TXXX:" +:+ custom_id3_tag) (Text [CUSTOM_ID3_VALUE]) audio)
              Hs) as [rated Hrated].
  assert (Esaved : saved = write_genre genre rated)
    by (by apply save_metadata_written).
  assert (Hkept : rated !! "TCON" = audio !! "TCON").
  { rewrite (write_rating_other _ _ _ _ "TCON" Hrated) by reflexivity.
    unfold add. by rewrite lookup_insert_ne by discriminate. }
  rewrite Esaved. split.
  - intros g -> Hg. unfold write_genre.
    destruct (decide (g = "")); [contradiction|].
    unfold add. apply lookup_insert_eq.
  - intros [-> | ->]; exact Hkept.
Qed.

Lemma genre_is_written_witness :
  save_metadata "PULZWAVE_APPROVED" "changeme@pulzwave.com" (Some 4)
    (Some "Tech House") foreign_tags !! "TCON" = Some (Text ["Tech House"]).
Proof.
  apply (genre_is_written "PULZWAVE_APPROVED" "changeme@pulzwave.com"
           (Some 4) (Some "Tech House") foreign_tags).
  - simpl. lia.
  - reflexivity.
  - discriminate.
Defined.

End Metadata.

(** ** [audio/processor.py]: one file analysed *)
Module Analyzer.

(** The dictionary [analyze_audio_file] returns. *)
Record AnalysisResult := mkResult {
  filepath : string;
  audio_data : string;
  duration : Q;
  waveform_lines : list Waveform.line;
  metadata : gmap string Metadata.value
}.

(** What reading and decoding a file yields: its bytes, the duration
    librosa computes, the spectrogram in decibels with its bin
    frequencies, and the frames and bit rate mutagen finds. *)
Record decoded := mkDecoded {
  d_bytes : string;
  d_duration : Q;
  d_stft_db : Waveform.spectrogram;
  d_freqs : list Q;
  d_tags : gmap string Metadata.frame;
  d_bitrate : option Z
}.

Section Analyze.

(** The file system and the decoding libraries: [inl msg] is the exception
    raised for a file that cannot be read or decoded. *)
Variable load : string -> string + decoded.
Variable py_int : string -> option Z.
Variable popm_str : Z -> string.
(** The setting [POPM_EMAIL]. *)
Variable popm_email : string.

Definition exn_text (e : Metadata.exn) : string :=
  match e with
  | Metadata.AttributeError => "AttributeError"
  | Metadata.IndexError => "IndexError"
  end.

(** [analyze_audio_file]: any exception is logged and raised again, so the
    caller sees [inl]. *)
Definition analyze_audio_file (filepath : string) : string + AnalysisResult :=
  match load filepath with
  | inl msg => inl msg
  | inr d =>
      match Waveform._generate_waveform_lines (d_stft_db d) (d_freqs d)
              Waveform.default_canvas_width Waveform.default_canvas_height with
      | None => inl "IndexError"
      | Some waveform_lines =>
          match Metadata._extract_metadata py_int popm_str popm_email
                  (d_tags d) (d_bitrate d) with
          | inl e => inl (exn_text e)
          | inr metadata =>
              inr (mkResult filepath (d_bytes d) (d_duration d)
                     waveform_lines metadata)
          end
      end
  end.

Lemma analyze_audio_file_filepath (p : string) (r : AnalysisResult) :
  analyze_audio_file p = inr r -> filepath r = p.
Proof.
  unfold analyze_audio_file. intros H.
  repeat case_match; simplify_eq. reflexivity.
Qed.

End Analyze.

End Analyzer.

(** ** Playback: [AudioProcessor.play_audio] and [_seek_relative] of
       [main_app.py] *)
Module Playback.

(** [min(a, b)] of Python: [b] when [b < a], else [a]. *)
Definition py_min (a b : Q) : Q := if Qltb b a then b else a.

(** Truth value of a number. *)
Definition truthy (x : Q) : bool := negb (Qeq_bool x 0).

(** Truth value of [audio_data]: [None] and the empty bytes are false. *)
Definition loaded (audio_data : option string) : bool :=
  match audio_data with
  | None | Some "" => false
  | Some _ => true
  end.

(** [play_audio]: the position it hands to the mixer and returns; without
    audio data it plays nothing and returns [0]. *)
Definition play_audio (audio_data : option string)
    (start_pos_seconds duration : option Q) : Q :=
  if negb (loaded audio_data) then 0%Q
  else
    match start_pos_seconds, duration with
    | Some p, _ => p
    | None, Some d => if truthy d then (d * (20 # 100))%Q else 0%Q
    | None, None => 0%Q
    end.

(** [_seek_relative]: the new [playback_start_time], or [None] when the
    method returns without touching anything.  [is_playing] and
    [current_time_ms] are what the mixer answers. *)
Definition _seek_relative (direction : string) (audio_duration : Q)
    (is_playing : bool) (playback_start_time : Q) (current_time_ms : Z)
    (current_audio_data : option string) : option Q :=
  if negb (truthy audio_duration) || negb is_playing then None
  else
    let skip_amount := (audio_duration * (12 # 100))%Q in
    let current_elapsed_seconds :=
      (playback_start_time + inject_Z current_time_ms / 1000)%Q in
    let new_position :=
      if String.eqb direction "forward"
      then py_min (current_elapsed_seconds + skip_amount)
                  (audio_duration - (1 # 10))
      else Waveform.py_max 0 (current_elapsed_seconds - skip_amount) in
    Some (play_audio current_audio_data (Some new_position) None).

Lemma py_min_spec (a b : Q) :
  (py_min a b <= a /\ py_min a b <= b /\ (py_min a b == a \/ py_min a b == b))%Q.
Proof.
  unfold py_min. destruct (Qltb b a) eqn:E.
  - apply Waveform.Qltb_true_iff in E. repeat split; lra.
  - apply Qltb_false_iff in E. repeat split; lra.
Qed.

Lemma py_max_spec (a b : Q) :
  (a <= Waveform.py_max a b /\ b <= Waveform.py_max a b /\
   (Waveform.py_max a b == a \/ Waveform.py_max a b == b))%Q.
Proof.
  unfold Waveform.py_max. destruct (Qltb a b) eqn:E.
  - apply Waveform.Qltb_true_iff in E. repeat split; lra.
  - apply Qltb_false_iff in E. repeat split; lra.
Qed.

(** X23. While a loaded track of at least a tenth of a second plays at
    a position inside the track, a seek restarts it inside the track: a
    forward seek lands at most a tenth of a second before the end and never
    behind the current position unless that is already closer to the end;
    a backward seek lands at or before the current position and never
    before the start.  Without a playing track nothing is touched. *)
Theorem seek_stays_in_track (direction : string) (audio_duration : Q)
    (is_playing : bool) (playback_start_time : Q) (current_time_ms : Z)
    (current_audio_data : option string) :
  let elapsed := (playback_start_time + inject_Z current_time_ms / 1000)%Q in
  ((1 # 10) <= audio_duration)%Q ->
  (0 <= elapsed)%Q -> (elapsed <= audio_duration)%Q ->
  loaded current_audio_data = true ->
  (is_playing = false ->
   _seek_relative direction audio_duration is_playing playback_start_time
     current_time_ms current_audio_data = None) /\
  (is_playing = true ->
   exists p,
     _seek_relative direction audio_duration is_playing playback_start_time
       current_time_ms current_audio_data = Some p /\
     (0 <= p)%Q /\ (p <= audio_duration)%Q /\
     (direction = "forward" ->
      (p <= audio_duration - (1 # 10))%Q /\
      ((elapsed <= audio_duration - (1 # 10))%Q -> (elapsed <= p)%Q)) /\
     (direction <> "forward" -> (p <= elapsed)%Q)).
Proof.
  intros elapsed Hdur H0 H1 Hloaded.
  assert (Htruthy : truthy audio_duration = true).
  { unfold truthy. apply negb_true_iff.
    destruct (Qeq_bool audio_duration 0) eqn:E; [|reflexivity].
    apply Qeq_bool_iff in E. lra. }
  unfold _seek_relative. rewrite Htruthy. cbn [negb orb].
  split; [by intros -> |]. intros ->. cbn [negb]. cbv zeta.
  fold elapsed. unfold play_audio. rewrite Hloaded. cbn [negb].
  eexists. split; [reflexivity|].
  destruct (String.eqb_spec direction "forward") as [Hd|Hd].
  - destruct (py_min_spec (elapsed + audio_duration * (12 # 100))
                (audio_duration - (1 # 10))) as (Ha & Hb & Hc).
    split; [destruct Hc as [Hc|Hc]; rewrite Hc; lra|].
    split; [lra|]. split; [|done].
    intros _. split; [exact Hb|]. intros He.
    destruct Hc as [Hc|Hc]; rewrite Hc; lra.
  - destruct (py_max_spec 0 (elapsed - audio_duration * (12 # 100)))
      as (Ha & Hb & Hc).
    split; [exact Ha|].
    split; [destruct Hc as [Hc|Hc]; rewrite Hc; lra|].
    split; [done|]. intros _.
    destruct Hc as [Hc|Hc]; rewrite Hc; lra.
Qed.

(** A track of 200 seconds, started at 40 s and played for 150 s more:
    the forward seek is cut at 199.9 s. *)
Lemma seek_stays_in_track_witness :
  exists p,
    _seek_relative "forward" 200 true 40 150000 (Some "ID3") = Some p /\
    (p <= 200 - (1 # 10))%Q.
Proof.
  destruct (seek_stays_in_track "forward" 200 true 40 150000 (Some "ID3"))
    as [_ H].
  - vm_compute. discriminate.
  - vm_compute. discriminate.
  - vm_compute. discriminate.
  - reflexivity.
  - destruct (H eq_refl) as (p & Hp & _ & _ & Hf & _).
    exists p. split; [exact Hp|]. by apply Hf.
Defined.

End Playback.

(** ** [utils/threading_utils.py] *)
Module Pool.

(** *** [queue.Queue] *)

(** A queue object: its bound ([maxsize <= 0] is no bound), its items with
    the next one to leave first, and the counter [task_done] decrements. *)
Record Queue (A : Type) := mkQueue {
  maxsize : Z;
  items : list A;
  unfinished_tasks : Z
}.
Arguments mkQueue {A}.
Arguments maxsize {A}.
Arguments items {A}.
Arguments unfinished_tasks {A}.

Section QueueOps.
Context {A : Type}.

(** [queue.Queue(maxsize)] *)
Definition Queue_new (maxsize : Z) : Queue A := mkQueue maxsize [] 0.

Definition qsize (q : Queue A) : Z := Z.of_nat (length (items q)).

Definition empty (q : Queue A) : bool :=
  match items q with
  | [] => true
  | _ => false
  end.

Definition full (q : Queue A) : bool :=
  (0 <? maxsize q) && (maxsize q <=? qsize q).

(** [q.put(x)]: [None] when the call has to wait for a free slot. *)
Definition put (x : A) (q : Queue A) : option (Queue A) :=
  if full q then None
  else Some (mkQueue (maxsize q) (items q ++ [x]) (unfinished_tasks q + 1)).

(** [q.get(...)]: [None] when there is nothing to take. *)
Definition get (q : Queue A) : option (A * Queue A) :=
  match items q with
  | [] => None
  | x :: rest => Some (x, mkQueue (maxsize q) rest (unfinished_tasks q))
  end.

(** [q.task_done()]: [None] is the [ValueError] of one call too many. *)
Definition task_done (q : Queue A) : option (Queue A) :=
  let unfinished := unfinished_tasks q - 1 in
  if unfinished <? 0 then None
  else Some (mkQueue (maxsize q) (items q) unfinished).

Lemma get_Some (q q' : Queue A) (x : A) :
  get q = Some (x, q') ->
  items q = x :: items q' /\ maxsize q' = maxsize q
  /\ unfinished_tasks q' = unfinished_tasks q.
Proof.
  unfold get. destruct (items q) as [|y rest] eqn:E; [discriminate|].
  intros H. inversion H; subst. simpl. auto.
Qed.

Lemma get_None (q : Queue A) : get q = None -> items q = [].
Proof. unfold get. by destruct (items q). Qed.

Lemma put_Some (q q' : Queue A) (x : A) :
  put x q = Some q' ->
  full q = false /\ items q' = items q ++ [x] /\ maxsize q' = maxsize q
  /\ unfinished_tasks q' = unfinished_tasks q + 1.
Proof.
  unfold put. destruct (full q); [discriminate|].
  intros H. inversion H; subst. simpl. auto.
Qed.

Lemma task_done_Some (q q' : Queue A) :
  task_done q = Some q' ->
  items q' = items q /\ maxsize q' = maxsize q
  /\ unfinished_tasks q' = unfinished_tasks q - 1 /\ 1 <= unfinished_tasks q.
Proof.
  unfold task_done. destruct (Z.ltb_spec (unfinished_tasks q - 1) 0); [discriminate|].
  intros H'. inversion H'; subst. simpl. repeat split; lia.
Qed.

Lemma task_done_None (q : Queue A) :
  task_done q = None -> unfinished_tasks q <= 0.
Proof.
  unfold task_done. destruct (Z.ltb_spec (unfinished_tasks q - 1) 0); [lia|discriminate].
Qed.

End QueueOps.

(** What a successful or failed queue operation says about the queue. *)
Ltac queue_facts :=
  repeat match goal with
  | H : get _ = Some (_, _) |- _ => apply get_Some in H as (? & ? & ?)
  | H : get _ = None |- _ => apply get_None in H
  | H : put _ _ = Some _ |- _ => apply put_Some in H as (? & ? & ? & ?)
  | H : task_done _ = Some _ |- _ => apply task_done_Some in H as (? & ? & ? & ?)
  | H : task_done _ = None |- _ => apply task_done_None in H
  end.

(** *** The manager, its threads and the calling thread *)

Definition loc := nat.

(** The fields of a [WorkerManager]; the two queues are references into the
    store of queue objects. *)
Record WorkerManager := mkWM {
  num_workers : Z;
  worker_threads : list nat;
  file_path_queue : loc;
  analysis_queue : loc
}.

(** Where a thread running [_worker_wrapper] stands. *)
Inductive wpc (result : Type) :=
| AtWhile                                   (* testing [stop_event.is_set()] *)
| AtGet                                     (* in [file_path_queue.get(timeout=0.5)] *)
| AtCall (filepath : string)                (* in [worker_function(filepath)] *)
| AtPut (filepath : string) (r : result)    (* in [analysis_queue.put(result)] *)
| AtTaskDone (filepath : string)            (* in the [finally] clause *)
| Finished                                  (* left the loop *)
| Crashed.                                  (* died of an exception *)
Arguments AtWhile {result}.
Arguments AtGet {result}.
Arguments AtCall {result}.
Arguments AtPut {result}.
Arguments AtTaskDone {result}.
Arguments Finished {result}.
Arguments Crashed {result}.

(** [thread.is_alive()] *)
Definition is_alive {result} (pc : wpc result) : bool :=
  match pc with
  | Finished | Crashed => false
  | _ => true
  end.

(** What the calling thread has left to do inside [start_workers] or
    [stop_workers], statement by statement. *)
Inductive minstr :=
| IStopSet                 (* [self.stop_event.set()] *)
| IClearFileQueue          (* the loop of [_clear_file_queue] *)
| IJoinThreads             (* [for thread in self.worker_threads:] *)
| IJoin (tid : nat)        (* [if thread.is_alive(): thread.join(timeout=1.0)] *)
| IResetThreads            (* [self.worker_threads = []] *)
| IStopClear               (* [self.stop_event.clear()] *)
| IClearAnalysisQueue      (* the loop of [_clear_queues] *)
| IPut (filepath : string) (* [self.file_path_queue.put(filepath)] *)
| ISpawn.                  (* [thread.start(); self.worker_threads.append(thread)] *)

(** The whole system: the manager, the event it shares with its caller, the
    store of queue objects, every thread ever started (by thread id), the
    rest of the call in progress, and three records of what happened: the
    lines given to [logger.error], the values [get_result] returned and the
    values put on the analysis queue. *)
Record state (result : Type) := mkState {
  self : WorkerManager;
  stop_event : bool;
  path_queues : gmap loc (Queue string);
  result_queues : gmap loc (Queue result);
  threads : list (wpc result);
  main : list minstr;
  log : list string;
  returned : list (option result);
  put_history : list result
}.
Arguments mkState {result}.
Arguments self {result}.
Arguments stop_event {result}.
Arguments path_queues {result}.
Arguments result_queues {result}.
Arguments threads {result}.
Arguments main {result}.
Arguments log {result}.
Arguments returned {result}.
Arguments put_history {result}.

Section Manager.
Context {result : Type}.

(** [worker_function]: [inl msg] is an exception whose text is [msg]. *)
Variable worker_function : string -> string + result.

Local Abbreviation state := (state result).

(** Field updates. *)
Definition set_worker_threads (ts : list nat) (s : state) : state :=
  mkState (mkWM (num_workers (self s)) ts (file_path_queue (self s))
             (analysis_queue (self s)))
    (stop_event s) (path_queues s) (result_queues s) (threads s) (main s)
    (log s) (returned s) (put_history s).
Definition set_stop_event (b : bool) (s : state) : state :=
  mkState (self s) b (path_queues s) (result_queues s) (threads s) (main s)
    (log s) (returned s) (put_history s).
Definition set_file_queue (q : Queue string) (s : state) : state :=
  mkState (self s) (stop_event s)
    (<[file_path_queue (self s) := q]> (path_queues s)) (result_queues s)
    (threads s) (main s) (log s) (returned s) (put_history s).
Definition set_analysis_queue (q : Queue result) (s : state) : state :=
  mkState (self s) (stop_event s) (path_queues s)
    (<[analysis_queue (self s) := q]> (result_queues s))
    (threads s) (main s) (log s) (returned s) (put_history s).
Definition set_threads (ts : list (wpc result)) (s : state) : state :=
  mkState (self s) (stop_event s) (path_queues s) (result_queues s) ts (main s)
    (log s) (returned s) (put_history s).
Definition set_main (m : list minstr) (s : state) : state :=
  mkState (self s) (stop_event s) (path_queues s) (result_queues s) (threads s) m
    (log s) (returned s) (put_history s).
Definition add_log (line : string) (s : state) : state :=
  mkState (self s) (stop_event s) (path_queues s) (result_queues s) (threads s)
    (main s) (log s ++ [line]) (returned s) (put_history s).
Definition add_returned (r : option result) (s : state) : state :=
  mkState (self s) (stop_event s) (path_queues s) (result_queues s) (threads s)
    (main s) (log s) (returned s ++ [r]) (put_history s).
Definition add_put (r : result) (s : state) : state :=
  mkState (self s) (stop_event s) (path_queues s) (result_queues s) (threads s)
    (main s) (log s) (returned s) (put_history s ++ [r]).
Definition set_pc (tid : nat) (pc : wpc result) (s : state) : state :=
  set_threads (<[tid := pc]> (threads s)) s.

(** [self.file_path_queue] and [self.analysis_queue], dereferenced. *)
Definition the_file_queue (s : state) : option (Queue string) :=
  path_queues s !! file_path_queue (self s).
Definition the_analysis_queue (s : state) : option (Queue result) :=
  result_queues s !! analysis_queue (self s).

(** [WorkerManager(num_workers, worker_function, stop_event)] in a store
    that holds no queue yet: [__init__] builds the two queues. *)
Definition __init__ (num_workers : Z) (stop_event : bool) : state :=
  let pq : gmap loc (Queue string) := ∅ in
  let rq : gmap loc (Queue result) := ∅ in
  let f := fresh (dom pq) in
  let a := fresh (dom rq) in
  mkState (mkWM num_workers [] f a) stop_event
    (<[f := Queue_new 0]> pq) (<[a := Queue_new (num_workers + 1)]> rq)
    [] [] [] [] [].

(** The methods that change the pool, as the statements they execute. *)
Definition _clear_file_queue : list minstr := [IClearFileQueue].

Definition stop_workers : list minstr :=
  [IStopSet] ++ _clear_file_queue ++ [IJoinThreads; IResetThreads; IStopClear].

Definition _clear_queues : list minstr :=
  _clear_file_queue ++ [IClearAnalysisQueue].

Definition start_workers (file_list : list string) (s : state)
    : list minstr :=
  stop_workers ++ _clear_queues
  ++ map IPut file_list
  ++ [IResetThreads]
  ++ replicate (Z.to_nat (num_workers (self s))) ISpawn.

(** The line [_worker_wrapper] logs for a failed item. *)
Definition error_line (filepath msg : string) : string :=
  "Worker error processing " +:+ filepath +:+ ": " +:+ msg.

(** One statement of the calling thread. *)
Definition main_step (s : state) : option state :=
  match main s with
  | [] => None
  | i :: rest =>
      match i with
      | IStopSet => Some (set_main rest (set_stop_event true s))
      | IClearFileQueue =>
          q ← the_file_queue s;
          match get q with
          | Some (_, q') => Some (set_file_queue q' s)
          | None => Some (set_main rest s)
          end
      | IJoinThreads =>
          Some (set_main (map IJoin (worker_threads (self s)) ++ rest) s)
      | IJoin _ =>
          (* the thread has ended, or it is still alive when the second of
             waiting is over: the caller goes on in both cases *)
          Some (set_main rest s)
      | IResetThreads => Some (set_main rest (set_worker_threads [] s))
      | IStopClear => Some (set_main rest (set_stop_event false s))
      | IClearAnalysisQueue =>
          q ← the_analysis_queue s;
          match get q with
          | Some (_, q') => Some (set_analysis_queue q' s)
          | None => Some (set_main rest s)
          end
      | IPut filepath =>
          q ← the_file_queue s;
          q' ← put filepath q;
          Some (set_main rest (set_file_queue q' s))
      | ISpawn =>
          let tid := length (threads s) in
          Some (set_main rest
                  (set_worker_threads (worker_threads (self s) ++ [tid])
                     (set_threads (threads s ++ [AtWhile]) s)))
      end
  end.

(** [_worker_wrapper], one step of the thread [tid] at a time. *)
Definition _worker_wrapper (tid : nat) (s : state) : option state :=
  pc ← threads s !! tid;
  match pc with
  | AtWhile =>
      Some (set_pc tid (if stop_event s then Finished else AtGet) s)
  | AtGet =>
      q ← the_file_queue s;
      match get q with
      | Some (filepath, q') => Some (set_pc tid (AtCall filepath) (set_file_queue q' s))
      | None => Some (set_pc tid Finished s)          (* [queue.Empty]: [break] *)
      end
  | AtCall filepath =>
      match worker_function filepath with
      | inr r => Some (set_pc tid (AtPut filepath r) s)
      | inl msg =>
          Some (set_pc tid (AtTaskDone filepath) (add_log (error_line filepath msg) s))
      end
  | AtPut filepath r =>
      q ← the_analysis_queue s;
      q' ← put r q;
      Some (set_pc tid (AtTaskDone filepath) (add_put r (set_analysis_queue q' s)))
  | AtTaskDone _ =>
      q ← the_file_queue s;
      match task_done q with
      | Some q' => Some (set_pc tid AtWhile (set_file_queue q' s))
      | None => Some (set_pc tid Crashed s)
      end
  | Finished | Crashed => None
  end.

(** What can happen next: the caller enters one of the methods (only when
    the previous call has returned), the call in progress advances, or a
    worker thread advances. *)
Inductive action :=
| Call_start_workers (file_list : list string)
| Call_stop_workers
| Call_get_result
| Main
| Worker (tid : nat).

Definition idle (s : state) : bool :=
  match main s with
  | [] => true
  | _ => false
  end.

(** [get_result(timeout)]: the first item, or [None] when the wait ends
    with the queue still empty. *)
Definition get_result (s : state) : option state :=
  q ← the_analysis_queue s;
  match get q with
  | Some (r, q') => Some (add_returned (Some r) (set_analysis_queue q' s))
  | None => Some (add_returned None s)
  end.

Definition exec (a : action) (s : state) : option state :=
  match a with
  | Call_start_workers file_list =>
      if idle s then Some (set_main (start_workers file_list s) s) else None
  | Call_stop_workers =>
      if idle s then Some (set_main stop_workers s) else None
  | Call_get_result =>
      if idle s then get_result s else None
  | Main => main_step s
  | Worker tid => _worker_wrapper tid s
  end.

Fixpoint run (acts : list action) (s : state) : option state :=
  match acts with
  | [] => Some s
  | a :: acts' => s' ← exec a s; run acts' s'
  end.

(** The other methods: they only look. *)
Definition has_pending_files (s : state) : option bool :=
  q ← the_file_queue s; Some (negb (empty q)).
Definition has_results (s : state) : option bool :=
  q ← the_analysis_queue s; Some (negb (empty q)).
Definition workers_active (s : state) : bool :=
  existsb (fun tid => match threads s !! tid with
                      | Some pc => is_alive pc
                      | None => false
                      end)
          (worker_threads (self s)).
Definition get_queue_sizes (s : state) : option (Z * Z) :=
  fq ← the_file_queue s; aq ← the_analysis_queue s; Some (qsize fq, qsize aq).

(** The states the system can be in after construction. *)
Definition reachable (num_workers : Z) (stop0 : bool) (s : state) : Prop :=
  exists acts, run acts (__init__ num_workers stop0) = Some s.

(** *** Reasoning about runs *)

Lemma run_app (acts1 acts2 : list action) (s : state) :
  run (acts1 ++ acts2) s = s' ← run acts1 s; run acts2 s'.
Proof.
  revert s. induction acts1 as [|a acts1 IH]; intros s; [reflexivity|].
  simpl. destruct (exec a s) as [s1|]; [apply IH | reflexivity].
Qed.

Lemma run_invariant (P : state -> Prop) :
  (forall a s s', P s -> exec a s = Some s' -> P s') ->
  forall acts s s', P s -> run acts s = Some s' -> P s'.
Proof.
  intros Hstep acts. induction acts as [|a acts IH]; intros s s' Hs Hrun.
  - by inversion Hrun; subst.
  - simpl in Hrun. destruct (exec a s) as [s1|] eqn:E; [|discriminate].
    eapply IH; [eapply Hstep; eauto | exact Hrun].
Qed.

Lemma reachable_invariant (P : state -> Prop) (n : Z) (stop0 : bool) :
  P (__init__ n stop0) ->
  (forall a s s', P s -> exec a s = Some s' -> P s') ->
  forall s, reachable n stop0 s -> P s.
Proof.
  intros H0 Hstep s [acts Hrun]. eapply run_invariant; eauto.
Qed.

(** Every case of [exec a s = Some s']. *)
Ltac exec_cases H :=
  unfold exec, get_result, main_step, _worker_wrapper, idle in H;
  repeat (simplify_option_eq; try case_match);
  simplify_option_eq; queue_facts.

(** The references of the manager point to queue objects built by
    [__init__]: the file queue without bound, the analysis queue with the
    bound [num_workers + 1]. *)
Definition refs_ok (n : Z) (s : state) : Prop :=
  num_workers (self s) = n /\
  (exists fq, the_file_queue s = Some fq /\ maxsize fq = 0) /\
  (exists aq, the_analysis_queue s = Some aq /\ maxsize aq = n + 1).

Lemma refs_ok_init (n : Z) (stop0 : bool) : refs_ok n (__init__ n stop0).
Proof.
  unfold refs_ok, __init__, the_file_queue, the_analysis_queue. simpl.
  rewrite !lookup_insert_eq. split; [reflexivity|]. split; eexists; eauto.
Qed.

Lemma refs_ok_step (n : Z) (a : action) (s s' : state) :
  refs_ok n s -> exec a s = Some s' -> refs_ok n s'.
Proof.
  unfold refs_ok, the_file_queue, the_analysis_queue.
  intros (Hn & (fq & Hfq & Hfm) & (aq & Haq & Ham)) H.
  destruct a; exec_cases H; cbn; rewrite ?lookup_insert_eq;
    (split; [reflexivity|]; split; eexists; split; eauto; congruence).
Qed.

(** *** The bound of the analysis queue *)

Definition bounded (n : Z) (s : state) : Prop :=
  refs_ok n s /\
  forall aq, the_analysis_queue s = Some aq -> qsize aq <= n + 1.

Lemma put_room (n : Z) (q q' : Queue result) (r : result) :
  0 <= n -> maxsize q = n + 1 -> put r q = Some q' -> qsize q' <= n + 1.
Proof.
  intros Hn Hm Hput. apply put_Some in Hput as (Hfull & Hitems & _ & _).
  unfold full in Hfull. unfold qsize in *. rewrite Hitems, length_app. simpl.
  destruct (Z.ltb_spec 0 (maxsize q)); [|lia].
  destruct (Z.leb_spec (maxsize q) (Z.of_nat (length (items q)))); [discriminate|lia].
Qed.

Lemma get_shrinks (q q' : Queue result) (r : result) :
  get q = Some (r, q') -> qsize q' <= qsize q.
Proof.
  intros H. apply get_Some in H as (Hitems & _ & _).
  unfold qsize. rewrite Hitems. simpl. lia.
Qed.

Lemma bounded_init (n : Z) (stop0 : bool) : 0 <= n -> bounded n (__init__ n stop0).
Proof.
  intros Hn. split; [apply refs_ok_init|].
  unfold __init__, the_analysis_queue. simpl. rewrite lookup_insert_eq.
  intros aq [= <-]. unfold qsize. simpl. lia.
Qed.

Lemma bounded_step (n : Z) (a : action) (s s' : state) :
  0 <= n -> bounded n s -> exec a s = Some s' -> bounded n s'.
Proof.
  intros Hn [Hrefs Hb] H.
  split; [by eapply refs_ok_step|].
  destruct Hrefs as (_ & _ & (aq & Haq & Ham)).
  specialize (Hb aq Haq).
  unfold the_analysis_queue in *.
  destruct a; unfold exec, get_result, main_step, _worker_wrapper, idle in H;
    repeat (simplify_option_eq; try case_match); simplify_option_eq;
    cbn; rewrite ?lookup_insert_eq; intros aq' ?; simplify_eq;
    try assumption;
    try (etrans; [by eapply get_shrinks | assumption]);
    by eapply put_room.
Qed.

(** C5. In every state a pool built for [n] workers can reach, the
    analysis queue is the one built with capacity [n + 1] and holds at most
    [n + 1] results; a worker about to push finds no step to take while the
    queue holds [n + 1] results, and pushes as soon as it holds fewer. *)
Theorem analysis_queue_bound (n : Z) (stop0 : bool) (s : state) :
  0 <= n -> reachable n stop0 s ->
  exists aq,
    the_analysis_queue s = Some aq /\
    maxsize aq = n + 1 /\
    qsize aq <= n + 1 /\
    get_queue_sizes s = (fun fq => (qsize fq, qsize aq)) <$> the_file_queue s /\
    (forall tid filepath r,
        threads s !! tid = Some (AtPut filepath r) ->
        qsize aq = n + 1 -> exec (Worker tid) s = None) /\
    (forall tid filepath r,
        threads s !! tid = Some (AtPut filepath r) ->
        qsize aq < n + 1 -> is_Some (exec (Worker tid) s)).
Proof.
  intros Hn Hreach.
  assert (Hb : bounded n s).
  { revert s Hreach. apply reachable_invariant.
    - by apply bounded_init.
    - intros a s s'. by apply bounded_step. }
  destruct Hb as [(_ & _ & (aq & Haq & Ham)) Hb].
  exists aq. split; [exact Haq|]. split; [exact Ham|].
  split; [by apply Hb|]. split; [|split].
  - unfold get_queue_sizes. rewrite Haq. by destruct (the_file_queue s).
  - intros tid filepath r Hpc Hfull. simpl. unfold _worker_wrapper.
    rewrite Hpc, Haq. simpl. unfold put, full. rewrite Ham, Hfull.
    destruct (Z.ltb_spec 0 (n + 1)); [|lia].
    destruct (Z.leb_spec (n + 1) (n + 1)); [reflexivity|lia].
  - intros tid filepath r Hpc Hroom. simpl. unfold _worker_wrapper.
    rewrite Hpc, Haq. simpl. unfold put, full. rewrite Ham.
    destruct (Z.leb_spec (n + 1) (qsize aq)); [lia|].
    rewrite andb_false_r. simpl. eauto.
Qed.

(** *** [task_done] is never called once too often *)

(** A thread between its [get] and its [task_done] holds one claimed
    item. *)
Definition holds (pc : wpc result) : Z :=
  match pc with
  | AtCall _ | AtPut _ _ | AtTaskDone _ => 1
  | _ => 0
  end.

Definition holders (ts : list (wpc result)) : Z :=
  foldr (fun pc k => holds pc + k) 0 ts.

Lemma holders_nonneg (ts : list (wpc result)) : 0 <= holders ts.
Proof.
  induction ts as [|pc ts IH]; simpl; [lia|]. destruct pc; simpl; lia.
Qed.

Lemma holders_app (ts1 ts2 : list (wpc result)) :
  holders (ts1 ++ ts2) = holders ts1 + holders ts2.
Proof. induction ts1 as [|pc ts1 IH]; simpl; lia. Qed.

Lemma holders_insert (ts : list (wpc result)) (tid : nat) (old new : wpc result) :
  ts !! tid = Some old ->
  holders (<[tid := new]> ts) = holders ts - holds old + holds new.
Proof.
  revert tid. induction ts as [|pc ts IH]; intros [|tid] H; simplify_eq/=.
  - lia.
  - rewrite (IH tid H). lia.
Qed.

Definition tasks_ok (s : state) : Prop :=
  exists fq, the_file_queue s = Some fq /\
             qsize fq + holders (threads s) <= unfinished_tasks fq.

Lemma tasks_ok_init (n : Z) (stop0 : bool) : tasks_ok (__init__ n stop0).
Proof.
  unfold tasks_ok, __init__, the_file_queue. simpl. rewrite lookup_insert_eq.
  eexists. split; [reflexivity|]. unfold qsize. simpl. lia.
Qed.

Ltac tasks_arith :=
  unfold qsize in *;
  repeat match goal with
  | H : items _ = _ |- _ => rewrite H in *
  | H : unfinished_tasks _ = _ |- _ => rewrite H in *
  end;
  repeat rewrite length_app in *; simpl in *; lia.

Lemma tasks_ok_step (a : action) (s s' : state) :
  tasks_ok s -> exec a s = Some s' -> tasks_ok s'.
Proof.
  unfold tasks_ok, the_file_queue.
  intros (fq & Hfq & Hle) H.
  destruct a; exec_cases H; cbn; rewrite ?lookup_insert_eq;
    eexists; (split; [eauto|]);
    repeat match goal with
    | Hpc : threads _ !! _ = Some _ |- _ =>
        rewrite (holders_insert _ _ _ _ Hpc); clear Hpc
    end;
    rewrite ?holders_app; simpl; try tasks_arith.
Qed.

(** A reachable thread in the [finally] clause completes it. *)
Lemma task_done_succeeds (s : state) (tid : nat) (filepath : string) :
  tasks_ok s -> threads s !! tid = Some (AtTaskDone filepath) ->
  exists fq fq', the_file_queue s = Some fq /\ task_done fq = Some fq'.
Proof.
  intros (fq & Hfq & Hle) Hpc. exists fq.
  assert (1 <= holders (threads s)).
  { rewrite <- (list_insert_id _ _ _ Hpc).
    rewrite (holders_insert _ _ _ _ Hpc). simpl.
    pose proof (holders_nonneg (threads s)).
    assert (Hx := holders_insert (threads s) tid _ Finished Hpc). simpl in Hx.
    pose proof (holders_nonneg (<[tid := Finished]> (threads s))). lia. }
  unfold task_done.
  destruct (Z.ltb_spec (unfinished_tasks fq - 1) 0) as [Hlt|]; [|eauto].
  unfold qsize in Hle. lia.
Qed.

(** *** Where results come from *)

(** [r] is what a successful call of [worker_function] returned. *)
Definition produced (r : result) : Prop :=
  exists filepath, worker_function filepath = inr r.

Definition pc_ok (pc : wpc result) : Prop :=
  match pc with
  | AtPut filepath r => worker_function filepath = inr r
  | _ => True
  end.

Definition origin_ok (s : state) : Prop :=
  Forall pc_ok (threads s) /\
  Forall produced (put_history s) /\
  (forall aq, the_analysis_queue s = Some aq -> Forall produced (items aq)) /\
  Forall (fun o => forall r, o = Some r -> produced r) (returned s).

Lemma origin_ok_init (n : Z) (stop0 : bool) : origin_ok (__init__ n stop0).
Proof.
  unfold origin_ok, __init__, the_analysis_queue. simpl. rewrite lookup_insert_eq.
  repeat split; try constructor. intros aq [= <-]. constructor.
Qed.

Lemma origin_ok_step (a : action) (s s' : state) :
  origin_ok s -> exec a s = Some s' -> origin_ok s'.
Proof.
  unfold origin_ok, the_analysis_queue.
  intros (Hpcs & Hhist & Hq & Hret) H.
  destruct a; exec_cases H; unfold the_analysis_queue in *;
    cbn; rewrite ?lookup_insert_eq;
    repeat match goal with
    | Haq : result_queues _ !! _ = Some _ |- _ => apply Hq in Haq
    | Hi : items _ = _ |- _ => rewrite Hi in *
    | Hpc : threads _ !! _ = Some (AtPut _ _) |- _ =>
        apply (Forall_lookup_1 _ _ _ _ Hpcs) in Hpc; simpl in Hpc
    end;
    repeat match goal with
    | Hf : Forall _ (_ :: _) |- _ => apply Forall_cons in Hf as [? ?]
    end;
    (split; [|split; [|split]]);
    try assumption;
    try (intros ? ?; simplify_eq);
    try assumption;
    try match goal with
    | Hi : items ?q = _ |- Forall _ (items ?q) => rewrite Hi
    end;
    repeat first
      [ apply Forall_insert | apply Forall_app_2 | apply Forall_cons_2
      | apply Forall_nil_2 ];
    try assumption; try exact I; try (by unfold produced; eauto);
    try (by intros ? ?; simplify_eq).
Qed.

Lemma reachable_tasks_ok (n : Z) (stop0 : bool) (s : state) :
  reachable n stop0 s -> tasks_ok s.
Proof.
  revert s. apply reachable_invariant; [apply tasks_ok_init|].
  intros a s s'. apply tasks_ok_step.
Qed.

Lemma reachable_origin_ok (n : Z) (stop0 : bool) (s : state) :
  reachable n stop0 s -> origin_ok s.
Proof.
  revert s. apply reachable_invariant; [apply origin_ok_init|].
  intros a s s'. apply origin_ok_step.
Qed.

Lemma reachable_refs_ok (n : Z) (stop0 : bool) (s : state) :
  reachable n stop0 s -> refs_ok n s.
Proof.
  revert s. apply reachable_invariant; [apply refs_ok_init|].
  intros a s s'. apply refs_ok_step.
Qed.

Lemma reachable_step (n : Z) (stop0 : bool) (a : action) (s s' : state) :
  reachable n stop0 s -> exec a s = Some s' -> reachable n stop0 s'.
Proof.
  intros [acts Hrun] Hexec. exists (acts ++ [a]).
  rewrite run_app, Hrun. simpl. by rewrite Hexec.
Qed.

(** C6. When the analysis of a claimed path raises, the worker logs one
    line, pushes nothing (the analysis queue and the record of pushes are
    as before), puts the path back nowhere (the file queue holds the same
    paths), completes its [finally] clause and stands at the head of its
    loop again, alive; no other thread, the flag and the calling thread are
    touched.  Everything ever pushed on the analysis queue was returned by
    a call of [worker_function] that did not raise. *)
Theorem failure_is_contained (n : Z) (stop0 : bool) (s : state)
    (tid : nat) (filepath msg : string) :
  reachable n stop0 s ->
  threads s !! tid = Some (AtCall filepath) ->
  worker_function filepath = inl msg ->
  exists s1 s2,
    exec (Worker tid) s = Some s1 /\ exec (Worker tid) s1 = Some s2 /\
    log s2 = log s ++ [error_line filepath msg] /\
    the_analysis_queue s2 = the_analysis_queue s /\
    put_history s2 = put_history s /\
    returned s2 = returned s /\
    items <$> the_file_queue s2 = items <$> the_file_queue s /\
    threads s2 = <[tid := AtWhile]> (threads s) /\
    stop_event s2 = stop_event s /\ main s2 = main s /\
    Forall produced (put_history s2).
Proof.
  intros Hreach Hpc Hfail.
  set (s1 := set_pc tid (AtTaskDone filepath) (add_log (error_line filepath msg) s)).
  assert (H1 : exec (Worker tid) s = Some s1).
  { simpl. unfold _worker_wrapper. rewrite Hpc. simpl. by rewrite Hfail. }
  assert (Hpc1 : threads s1 !! tid = Some (AtTaskDone filepath)).
  { simpl. apply list_lookup_insert_eq. by eapply lookup_lt_Some. }
  pose proof (reachable_tasks_ok n stop0 s1 (reachable_step _ _ _ _ _ Hreach H1)) as Hto.
  destruct (task_done_succeeds s1 tid filepath Hto Hpc1) as (fq & fq' & Hfq & Htd).
  exists s1, (set_pc tid AtWhile (set_file_queue fq' s1)).
  split; [exact H1|]. split.
  { simpl. unfold _worker_wrapper. rewrite Hpc1. simpl. rewrite Hfq. simpl.
    by rewrite Htd. }
  apply task_done_Some in Htd as (Hitems & _ & _ & _).
  destruct (reachable_origin_ok n stop0 s Hreach) as (_ & Hhist & _ & _).
  repeat split; try reflexivity.
  - unfold the_file_queue in *. simpl in *. rewrite lookup_insert_eq, Hfq.
    simpl. by rewrite Hitems.
  - simpl. apply list_insert_insert_eq.
  - exact Hhist.
Qed.

(** C2, as the code has it.  A worker at the head of its loop that finds
    the flag set leaves the loop at once: it takes nothing from the file
    queue.  A worker whose [get] ends with the file queue still empty also
    leaves the loop (the [break] under [except queue.Empty]), whether the
    flag is set or clear; it does not go round the loop again. *)
Theorem worker_loop_step (s : state) (tid : nat) :
  (threads s !! tid = Some AtWhile -> stop_event s = true ->
     exec (Worker tid) s = Some (set_pc tid Finished s) /\
     the_file_queue (set_pc tid Finished s) = the_file_queue s) /\
  (threads s !! tid = Some AtWhile -> stop_event s = false ->
     exec (Worker tid) s = Some (set_pc tid AtGet s)) /\
  (forall fq, threads s !! tid = Some AtGet ->
     the_file_queue s = Some fq -> items fq = [] ->
     exec (Worker tid) s = Some (set_pc tid Finished s)) /\
  (forall fq filepath rest, threads s !! tid = Some AtGet ->
     the_file_queue s = Some fq -> items fq = filepath :: rest ->
     exists s', exec (Worker tid) s = Some s' /\
                threads s' = <[tid := AtCall filepath]> (threads s) /\
                items <$> the_file_queue s' = Some rest).
Proof.
  split; [|split; [|split]].
  - intros Hpc Hstop. simpl. unfold _worker_wrapper. rewrite Hpc, Hstop. auto.
  - intros Hpc Hstop. simpl. unfold _worker_wrapper. by rewrite Hpc, Hstop.
  - intros fq Hpc Hfq Hitems. simpl. unfold _worker_wrapper.
    rewrite Hpc. simpl. rewrite Hfq. simpl. unfold get. by rewrite Hitems.
  - intros fq filepath rest Hpc Hfq Hitems. simpl. unfold _worker_wrapper.
    rewrite Hpc. simpl. rewrite Hfq. simpl. unfold get. rewrite Hitems.
    eexists. split; [reflexivity|]. split; [reflexivity|].
    unfold the_file_queue. simpl. by rewrite lookup_insert_eq.
Qed.

(** *** [start_workers]: the queues are kept and emptied *)

(** Steps inside a call: no new call is entered. *)
Definition inside_call (a : action) : Prop :=
  match a with
  | Main | Worker _ => True
  | _ => False
  end.

Lemma run_invariant_on (ok : action -> Prop) (P : state -> Prop) :
  (forall a s s', ok a -> P s -> exec a s = Some s' -> P s') ->
  forall acts s s', Forall ok acts -> P s -> run acts s = Some s' -> P s'.
Proof.
  intros Hstep acts. induction acts as [|a acts IH]; intros s s' Hok Hs Hrun.
  - by inversion Hrun; subst.
  - apply Forall_cons in Hok as [Ha Hok].
    simpl in Hrun. destruct (exec a s) as [s1|] eqn:E; [|discriminate].
    eapply IH; [exact Hok | eapply Hstep; eauto | exact Hrun].
Qed.







(** How many statements the calling thread still has to execute when it
    runs on its own, given the lengths of the file queue, of the analysis
    queue and of [worker_threads]. *)
Fixpoint cost (m : list minstr) (f a t : nat) : nat :=
  match m with
  | [] => 0
  | i :: rest =>
      S (match i with
         | IClearFileQueue => f + cost rest 0 a t
         | IClearAnalysisQueue => a + cost rest f 0 t
         | IPut _ => cost rest (S f) a t
         | IJoinThreads => t + cost rest f a t
         | IResetThreads => cost rest f a 0
         | ISpawn => cost rest f a (S t)
         | IStopSet | IStopClear | IJoin _ => cost rest f a t
         end)
  end.

Lemma cost_joins (tids : list nat) (rest : list minstr) (f a t : nat) :
  cost (map IJoin tids ++ rest) f a t = (length tids + cost rest f a t)%nat.
Proof. induction tids as [|x tids IH]; simpl; [reflexivity|]. by rewrite IH. Qed.

Definition file_items (s : state) : list string :=
  from_option items [] (the_file_queue s).
Definition analysis_items (s : state) : list result :=
  from_option items [] (the_analysis_queue s).

Definition steps_left (s : state) : nat :=
  cost (main s) (length (file_items s)) (length (analysis_items s))
       (length (worker_threads (self s))).

(** What the file queue, the analysis queue and the flag will hold when the
    rest [m] of the call has been executed with no other thread running. *)
Fixpoint final_files (m : list minstr) (cur : list string) : list string :=
  match m with
  | [] => cur
  | IClearFileQueue :: rest => final_files rest []
  | IPut filepath :: rest => final_files rest (cur ++ [filepath])
  | _ :: rest => final_files rest cur
  end.

Fixpoint final_results (m : list minstr) (cur : list result) : list result :=
  match m with
  | [] => cur
  | IClearAnalysisQueue :: rest => final_results rest []
  | _ :: rest => final_results rest cur
  end.

Fixpoint final_stop (m : list minstr) (cur : bool) : bool :=
  match m with
  | [] => cur
  | IStopSet :: rest => final_stop rest true
  | IStopClear :: rest => final_stop rest false
  | _ :: rest => final_stop rest cur
  end.

Lemma final_files_joins (tids : list nat) (rest : list minstr) (cur : list string) :
  final_files (map IJoin tids ++ rest) cur = final_files rest cur.
Proof. induction tids as [|x tids IH]; [reflexivity | exact IH]. Qed.

Lemma final_results_joins (tids : list nat) (rest : list minstr) (cur : list result) :
  final_results (map IJoin tids ++ rest) cur = final_results rest cur.
Proof. induction tids as [|x tids IH]; [reflexivity | exact IH]. Qed.

Lemma final_stop_joins (tids : list nat) (rest : list minstr) (cur : bool) :
  final_stop (map IJoin tids ++ rest) cur = final_stop rest cur.
Proof. induction tids as [|x tids IH]; [reflexivity | exact IH]. Qed.







(** One statement of the calling thread: it can always be executed, it
    uses up one unit of [steps_left] and leaves the three forecasts as they
    were. *)
Lemma main_step_progress (n : Z) (s : state) :
  refs_ok n s -> main s <> [] ->
  exists s', exec Main s = Some s' /\
             S (steps_left s') = steps_left s /\
             final_files (main s') (file_items s')
               = final_files (main s) (file_items s) /\
             final_results (main s') (analysis_items s')
               = final_results (main s) (analysis_items s) /\
             final_stop (main s') (stop_event s')
               = final_stop (main s) (stop_event s).
Proof.
  intros (_ & (fq & Hfq & Hfm) & (aq & Haq & _)) Hm.
  unfold steps_left, file_items, analysis_items, exec, main_step.
  unfold the_file_queue, the_analysis_queue in *.
  destruct (main s) as [|i rest] eqn:Em; [contradiction|].
  destruct i; rewrite ?Hfq, ?Haq; cbn [mbind option_bind from_option].
  all: try (destruct (get _) as [[? ?]|] eqn:Eg; queue_facts).
  all: try (unfold put, full; rewrite Hfm; cbn [andb Z.ltb Z.compare]).
  all: eexists; (split; [reflexivity|]); cbn;
    rewrite ?lookup_insert_eq, ?Hfq, ?Haq, ?Em; cbn;
    rewrite ?cost_joins, ?length_map, ?final_files_joins, ?final_results_joins,
      ?final_stop_joins, ?length_app; cbn;
    repeat match goal with
    | Hi : items _ = _ |- _ => rewrite Hi
    end; cbn; rewrite ?Nat.add_1_r; auto.
Qed.

Lemma main_runs_to_end (n : Z) (s : state) :
  refs_ok n s ->
  exists s', run (replicate (steps_left s) Main) s = Some s' /\
             main s' = [] /\
             file_items s' = final_files (main s) (file_items s) /\
             analysis_items s' = final_results (main s) (analysis_items s) /\
             stop_event s' = final_stop (main s) (stop_event s).
Proof.
  remember (steps_left s) as k eqn:Ek. revert s Ek.
  induction k as [|k IH]; intros s Ek Hrefs.
  - exists s. destruct (main s) as [|i rest] eqn:Em.
    + simpl. auto.
    + unfold steps_left in Ek. rewrite Em in Ek. discriminate Ek.
  - assert (Hm : main s <> []).
    { intros Em. unfold steps_left in Ek. rewrite Em in Ek. discriminate Ek. }
    destruct (main_step_progress n s Hrefs Hm) as (s1 & Hexec & Hk & Hf & Ha & Hs).
    destruct (IH s1) as (s' & Hrun & Hend & Hf' & Ha' & Hs').
    { lia. }
    { by eapply refs_ok_step. }
    exists s'. split.
    { cbn [replicate run]. rewrite Hexec. simpl. exact Hrun. }
    split; [exact Hend|]. rewrite Hf', Ha', Hs'. auto.
Qed.


(** *** No worker dies of an exception *)

Definition not_crashed (pc : wpc result) : Prop := pc <> Crashed.

Lemma not_crashed_step (a : action) (s s' : state) :
  tasks_ok s -> Forall not_crashed (threads s) -> exec a s = Some s' ->
  Forall not_crashed (threads s').
Proof.
  intros Htasks Hok H. destruct a.
  1-4: exec_cases H; cbn; try assumption;
       (apply Forall_app_2; [assumption | by repeat constructor]).
  destruct (threads s !! tid) as [pc|] eqn:Hpc.
  2:{ unfold exec, _worker_wrapper in H. rewrite Hpc in H. discriminate H. }
  destruct pc;
    try (exec_cases H; cbn; (apply Forall_insert; [assumption | discriminate])).
  destruct (task_done_succeeds s tid filepath Htasks Hpc)
    as (fq & fq' & Hfq & Htd).
  unfold exec, _worker_wrapper in H. rewrite Hpc in H.
  cbn [mbind option_bind] in H. rewrite Hfq in H.
  cbn [mbind option_bind] in H. rewrite Htd in H.
  inversion H; subst. cbn. apply Forall_insert; [assumption | discriminate].
Qed.

(** X17. In every state the pool can reach, no worker thread has died
    of an exception: [worker_function]'s exceptions are caught and logged,
    and the [task_done] of the [finally] clause never raises, because each
    call of it follows a [get] of the same thread. *)
Theorem no_worker_crashes (n : Z) (stop0 : bool) (s : state) :
  reachable n stop0 s -> Forall not_crashed (threads s).
Proof.
  intros Hreach.
  assert (H : tasks_ok s /\ Forall not_crashed (threads s)); [|apply H].
  revert s Hreach. apply reachable_invariant.
  - split; [apply tasks_ok_init | constructor].
  - intros a s s' [Htasks Hok] H. split.
    + by eapply tasks_ok_step.
    + by eapply not_crashed_step.
Qed.

(** *** Results reach the consumer in the order they were pushed *)

(** The results [get_result] has handed out, oldest first. *)
Definition delivered (s : state) : list result := omap id (returned s).

Definition in_push_order (s : state) : Prop :=
  exists aq, the_analysis_queue s = Some aq /\
             (delivered s ++ items aq) `sublist_of` put_history s.

Lemma in_push_order_step (a : action) (s s' : state) :
  in_push_order s -> exec a s = Some s' -> in_push_order s'.
Proof.
  unfold in_push_order, delivered, the_analysis_queue.
  intros (aq & Haq & Hsub) H.
  destruct a; exec_cases H; cbn; rewrite ?lookup_insert_eq;
    eexists; (split; [eauto|]); simplify_eq;
    rewrite ?omap_app; cbn; rewrite ?app_nil_r;
    repeat match goal with
    | Hi : items _ = _ |- _ => rewrite Hi in *
    end;
    first
      [ assumption
      | by rewrite <- app_assoc
      | rewrite app_assoc; by apply sublist_app
      | etrans; [|exact Hsub];
        apply sublist_app; [reflexivity | by apply sublist_cons] ].
Qed.

(** X18. In every state the pool can reach, the results handed out by
    [get_result] so far, followed by the results waiting in the analysis
    queue, form a subsequence of the results pushed so far: results are
    delivered in the order of the pushes, none twice, none that was not
    pushed (some pushed ones are missing: those a restart has cleared). *)
Theorem results_in_push_order (n : Z) (stop0 : bool) (s : state) :
  reachable n stop0 s ->
  (delivered s ++ analysis_items s) `sublist_of` put_history s.
Proof.
  intros Hreach.
  assert (H : in_push_order s).
  { revert s Hreach. apply reachable_invariant.
    - unfold in_push_order, __init__, the_analysis_queue, delivered. simpl.
      rewrite lookup_insert_eq. eexists. split; [reflexivity|]. constructor.
    - intros a s s'. apply in_push_order_step. }
  destruct H as (aq & Haq & Hsub). unfold analysis_items. by rewrite Haq.
Qed.

(** *** Every claimed file is pushed or logged *)

(** A thread that has claimed a file and has neither pushed a result nor
    logged a failure for it yet. *)
Definition in_progress (pc : wpc result) : Z :=
  match pc with
  | AtCall _ | AtPut _ _ => 1
  | _ => 0
  end.

Definition working (ts : list (wpc result)) : Z :=
  foldr (fun pc k => in_progress pc + k) 0 ts.

Lemma working_insert (ts : list (wpc result)) (tid : nat) (old new : wpc result) :
  ts !! tid = Some old ->
  working (<[tid := new]> ts) = working ts - in_progress old + in_progress new.
Proof.
  revert tid. induction ts as [|pc ts IH]; intros [|tid] H; simplify_eq/=.
  - lia.
  - rewrite (IH tid H). lia.
Qed.

(** Files pushed, files logged as failed, files being analysed and files
    waiting. *)
Definition accounted (s : state) : Z :=
  Z.of_nat (length (put_history s)) + Z.of_nat (length (log s))
  + working (threads s) + Z.of_nat (length (file_items s)).

(** Steps between two calls that change the pool: the workers and the
    consumer. *)
Definition between_calls (a : action) : Prop :=
  match a with
  | Worker _ | Call_get_result => True
  | _ => False
  end.

Lemma accounted_step (a : action) (s s' : state) :
  between_calls a -> exec a s = Some s' -> accounted s' = accounted s.
Proof.
  intros Ha H. unfold accounted, file_items, the_file_queue.
  destruct a; try contradiction; exec_cases H;
    unfold the_file_queue, the_analysis_queue in *; cbn;
    rewrite ?lookup_insert_eq;
    repeat match goal with
    | Hpc : threads _ !! _ = Some _ |- _ =>
        rewrite (working_insert _ _ _ _ Hpc); clear Hpc
    | Hq : path_queues _ !! _ = Some _ |- _ => rewrite Hq
    end;
    cbn;
    repeat match goal with
    | Hi : items _ = _ |- _ => rewrite Hi
    end;
    cbn; rewrite ?length_app; cbn; lia.
Qed.

(** X19. While the workers run and the consumer takes results, the
    number of results pushed, plus the number of failures logged, plus the
    number of files being analysed, plus the number of files waiting in the
    file queue, stays what it was: every file taken from the queue ends as
    one pushed result or one logged failure, never both, never neither. *)
Theorem every_file_accounted (acts : list action) (s s' : state) :
  Forall between_calls acts -> run acts s = Some s' ->
  accounted s' = accounted s.
Proof.
  intros Hacts Hrun.
  apply (run_invariant_on between_calls (fun t => accounted t = accounted s))
    with (acts := acts) (s := s); try done.
  intros a t t' Ha Ht H. rewrite <- Ht. by apply (accounted_step a).
Qed.

(** *** What a call leaves in [worker_threads] and in the flag *)

(** What [worker_threads] will hold, and how many threads will have been
    started, when the rest [m] of the call has been executed. *)
Fixpoint final_tracked (m : list minstr) (cur : list nat) (len : nat)
    : list nat * nat :=
  match m with
  | [] => (cur, len)
  | IResetThreads :: rest => final_tracked rest [] len
  | ISpawn :: rest => final_tracked rest (cur ++ [len]) (S len)
  | _ :: rest => final_tracked rest cur len
  end.

Lemma final_tracked_joins (tids : list nat) (rest : list minstr)
    (cur : list nat) (len : nat) :
  final_tracked (map IJoin tids ++ rest) cur len = final_tracked rest cur len.
Proof. induction tids as [|x tids IH]; [reflexivity | exact IH]. Qed.

Lemma final_tracked_puts (file_list : list string) (rest : list minstr)
    (cur : list nat) (len : nat) :
  final_tracked (map IPut file_list ++ rest) cur len
  = final_tracked rest cur len.
Proof. induction file_list as [|x l IH]; [reflexivity | exact IH]. Qed.

Lemma final_tracked_spawns (k : nat) (cur : list nat) (len : nat) :
  final_tracked (replicate k ISpawn) cur len = (cur ++ seq len k, (len + k)%nat).
Proof.
  revert cur len. induction k as [|k IH]; intros cur len; simpl.
  - by rewrite app_nil_r, Nat.add_0_r.
  - rewrite IH, <- app_assoc. simpl. f_equal. lia.
Qed.

Definition forecast (s : state) : list nat * nat * bool :=
  (final_tracked (main s) (worker_threads (self s)) (length (threads s)),
   final_stop (main s) (stop_event s)).

Lemma forecast_step (a : action) (s s' : state) :
  inside_call a -> exec a s = Some s' -> forecast s' = forecast s.
Proof.
  intros Ha H. unfold forecast.
  destruct a; try contradiction; exec_cases H; cbn;
    repeat match goal with
    | Hm : main _ = _ |- _ => rewrite Hm
    end; cbn;
    rewrite ?final_tracked_joins, ?final_stop_joins, ?length_insert,
      ?length_app; cbn; rewrite ?Nat.add_1_r; reflexivity.
Qed.

Lemma forecast_run (acts : list action) (s s' : state) :
  Forall inside_call acts -> run acts s = Some s' -> forecast s' = forecast s.
Proof.
  intros Hacts Hrun.
  apply (run_invariant_on inside_call (fun t => forecast t = forecast s))
    with (acts := acts) (s := s); try done.
  intros a t t' Ha Ht H. rewrite <- Ht. by apply (forecast_step a).
Qed.

(** The threads as they will be when the calling thread has executed [m]
    on its own. *)
Fixpoint final_threads (m : list minstr) (cur : list (wpc result))
    : list (wpc result) :=
  match m with
  | [] => cur
  | ISpawn :: rest => final_threads rest (cur ++ [AtWhile])
  | _ :: rest => final_threads rest cur
  end.

Lemma final_threads_joins (tids : list nat) (rest : list minstr)
    (cur : list (wpc result)) :
  final_threads (map IJoin tids ++ rest) cur = final_threads rest cur.
Proof. induction tids as [|x tids IH]; [reflexivity | exact IH]. Qed.

Lemma final_threads_run (k : nat) (s s' : state) :
  run (replicate k Main) s = Some s' ->
  final_threads (main s') (threads s') = final_threads (main s) (threads s).
Proof.
  intros Hrun.
  apply (run_invariant_on (fun a => a = Main)
           (fun t => final_threads (main t) (threads t)
                     = final_threads (main s) (threads s)))
    with (acts := replicate k Main) (s := s); try done.
  - intros a t t' -> Ht H. rewrite <- Ht.
    exec_cases H; cbn;
      repeat match goal with
      | Hm : main _ = _ |- _ => rewrite Hm
      end; cbn; rewrite ?final_threads_joins; reflexivity.
  - by apply Forall_replicate.
Qed.

(** X20. When [stop_workers] returns, whatever the worker threads did
    meanwhile, the flag is clear again and the manager tracks no thread, so
    [workers_active()] answers [False] whether or not the threads have
    ended; no thread has been started.  Run on its own the call does
    return, with the file queue empty, the analysis queue holding what it
    held and every thread where it stood. *)
Theorem stop_workers_forgets_workers (n : Z) (stop0 : bool) (s : state) :
  reachable n stop0 s -> main s = [] ->
  (forall acts s',
      Forall inside_call acts ->
      run (Call_stop_workers :: acts) s = Some s' -> main s' = [] ->
      stop_event s' = false /\ worker_threads (self s') = [] /\
      workers_active s' = false /\
      length (threads s') = length (threads s)) /\
  (exists k s',
      run (Call_stop_workers :: replicate k Main) s = Some s' /\
      main s' = [] /\
      file_items s' = [] /\
      analysis_items s' = analysis_items s /\
      threads s' = threads s).
Proof.
  intros Hreach Hidle.
  pose proof (reachable_refs_ok n stop0 s Hreach) as Hrefs.
  set (s0 := set_main stop_workers s).
  assert (Hcall : exec Call_stop_workers s = Some s0).
  { simpl. unfold idle. by rewrite Hidle. }
  split.
  - intros acts s' Hacts Hrun Hend.
    cbn [run] in Hrun. rewrite Hcall in Hrun. simpl in Hrun.
    pose proof (forecast_run acts s0 s' Hacts Hrun) as Hf.
    unfold forecast in Hf. rewrite Hend in Hf. cbn in Hf.
    injection Hf as Hwt Hlen Hstop.
    unfold workers_active. rewrite Hwt. auto.
  - assert (Hrefs0 : refs_ok n s0) by (by eapply refs_ok_step).
    destruct (main_runs_to_end n s0 Hrefs0) as (s' & Hrun & Hend & Hf & Ha & Hs).
    exists (steps_left s0), s'.
    split; [cbn [run]; rewrite Hcall; exact Hrun|].
    split; [exact Hend|].
    split; [rewrite Hf; reflexivity|].
    split; [rewrite Ha; reflexivity|].
    pose proof (final_threads_run _ _ _ Hrun) as Ht.
    rewrite Hend in Ht. exact Ht.
Qed.

(** X21. When [start_workers] returns, whatever the worker threads did
    meanwhile, the manager tracks exactly [num_workers] threads, all of them
    started by this call: the threads of earlier calls are tracked no
    longer, whether or not they have ended. *)
Theorem start_workers_tracks_new_threads (n : Z) (stop0 : bool) (s : state)
    (file_list : list string) (acts : list action) (s' : state) :
  reachable n stop0 s -> main s = [] ->
  Forall inside_call acts ->
  run (Call_start_workers file_list :: acts) s = Some s' -> main s' = [] ->
  worker_threads (self s') = seq (length (threads s)) (Z.to_nat n) /\
  length (threads s') = (length (threads s) + Z.to_nat n)%nat.
Proof.
  intros Hreach Hidle Hacts Hrun Hend.
  destruct (reachable_refs_ok n stop0 s Hreach) as (Hn & _ & _).
  cbn [run] in Hrun. unfold exec, idle in Hrun. rewrite Hidle in Hrun.
  cbn [mbind option_bind] in Hrun.
  pose proof (forecast_run acts _ s' Hacts Hrun) as Hf.
  unfold forecast in Hf. rewrite Hend in Hf.
  unfold start_workers in Hf. rewrite Hn in Hf. cbn in Hf.
  rewrite final_tracked_puts in Hf. cbn in Hf.
  rewrite final_tracked_spawns in Hf. cbn in Hf.
  injection Hf as Hwt Hlen _. auto.
Qed.

End Manager.

(** *** A restart after the workers have ended *)

(** Every case of [exec a s = Some s'], for the sections that follow. *)
Ltac exec_cases H :=
  unfold exec, get_result, main_step, _worker_wrapper, idle in H;
  repeat (simplify_option_eq; try case_match);
  simplify_option_eq; queue_facts.

Section Generations.
Context {result : Type}.
Variable worker_function : string -> string + result.
(** The path a result was computed from. *)
Variable source : result -> string.
Hypothesis source_ok :
  forall filepath r, worker_function filepath = inr r -> source r = filepath.

Local Abbreviation state := (state result).

(** Everything in flight belongs to the batch [B]: the paths still to be
    enqueued, the paths in the file queue, the results in the analysis
    queue, and what each thread holds. *)
Definition instr_in (B : list string) (i : minstr) : Prop :=
  match i with
  | IPut filepath => filepath ∈ B
  | _ => True
  end.

Definition pc_in (B : list string) (pc : wpc result) : Prop :=
  match pc with
  | AtCall filepath | AtTaskDone filepath => filepath ∈ B
  | AtPut filepath r => filepath ∈ B /\ source r ∈ B
  | _ => True
  end.

Definition generation (B : list string) (t : state) : Prop :=
  Forall (instr_in B) (main t) /\
  Forall (fun filepath => filepath ∈ B) (file_items t) /\
  Forall (fun r => source r ∈ B) (analysis_items t) /\
  Forall (pc_in B) (threads t).

Definition ret_in (B : list string) (o : option result) : Prop :=
  forall r, o = Some r -> source r ∈ B.

Definition no_start (a : action) : Prop :=
  match a with
  | Call_start_workers _ => False
  | _ => True
  end.

Lemma instr_in_joins (B : list string) (tids : list nat) :
  Forall (instr_in B) (map IJoin tids).
Proof. induction tids; constructor; [exact I | assumption]. Qed.

Lemma generation_step (B : list string) (a : action) (s s' : state) :
  no_start a -> generation B s -> exec worker_function a s = Some s' ->
  generation B s' /\
  exists new, returned s' = returned s ++ new /\ Forall (ret_in B) new.
Proof.
  unfold generation, file_items, analysis_items.
  intros Ha (Hm & Hf & Hq & Ht) H.
  destruct a; try contradiction; exec_cases H.
  all: unfold the_file_queue, the_analysis_queue in *; cbn in *.
  all: repeat match goal with
       | Hl : _ !! _ = Some _ |- _ => rewrite Hl in *
       end; cbn in *; rewrite ?lookup_insert_eq; cbn.
  all: repeat match goal with
       | Hi : items _ = _ |- _ => rewrite Hi in *
       | Hm' : main _ = _ |- _ => rewrite Hm' in *
       | Hpc : threads _ !! _ = Some _ |- _ =>
           apply (Forall_lookup_1 _ _ _ _ Ht) in Hpc; simpl in Hpc
       end.
  all: repeat match goal with
       | Hc : Forall _ (_ :: _) |- _ => apply Forall_cons in Hc as [? ?]
       | Hc : _ /\ _ |- _ => destruct Hc
       end.
  all: split;
       [ repeat split
       | first
           [ by exists []; rewrite app_nil_r; split; [|constructor]
           | eexists [_]; split; [reflexivity|];
             repeat constructor; intros ? ?; by simplify_eq ] ].
  all: try assumption.
  all: try (by repeat constructor).
  all: try (apply Forall_insert; [assumption|]; simpl; by auto).
  all: try (apply Forall_app_2; [assumption|]; by repeat constructor).
  all: try (apply Forall_app_2; [|assumption]; by apply instr_in_joins).
  apply Forall_insert; [assumption|]. simpl. split; [assumption|].
  by rewrite (source_ok _ _ H0).
Qed.

(** The first part of [start_workers] when no thread is alive: up to the
    end of the two loops that empty the queues, nothing can move but the
    calling thread. *)
Definition dead (pc : wpc result) : Prop := is_alive pc = false.

Definition harmless (i : minstr) : Prop :=
  match i with
  | IPut _ | ISpawn | IClearAnalysisQueue => False
  | _ => True
  end.

Definition enqueue_and_spawn (B : list string) (k : nat) : list minstr :=
  map IPut B ++ [IResetThreads] ++ replicate k ISpawn.

Definition preparing (B : list string) (k : nat) (t : state) : Prop :=
  Forall dead (threads t) /\
  ((exists pre,
       main t = pre ++ IClearFileQueue :: IClearAnalysisQueue
                       :: enqueue_and_spawn B k
       /\ Forall harmless pre)
   \/ (main t = IClearAnalysisQueue :: enqueue_and_spawn B k
       /\ file_items t = [])).

Lemma dead_thread_no_step (s : state) (tid : nat) :
  Forall dead (threads s) -> exec worker_function (Worker tid) s = None.
Proof.
  intros Hd. simpl. unfold _worker_wrapper.
  destruct (threads s !! tid) as [pc|] eqn:E; [|reflexivity].
  apply (Forall_lookup_1 _ _ _ _ Hd) in E. by destruct pc.
Qed.

Lemma enqueue_and_spawn_in (B : list string) (k : nat) :
  Forall (instr_in B) (enqueue_and_spawn B k).
Proof.
  unfold enqueue_and_spawn. apply Forall_app_2; [|apply Forall_app_2].
  - apply Forall_forall. intros i Hi.
    apply list_elem_of_fmap in Hi as (p & -> & Hp). exact Hp.
  - by repeat constructor.
  - apply Forall_forall. intros i Hi.
    apply elem_of_replicate in Hi as [-> _]. exact I.
Qed.

Lemma dead_pc_in (B : list string) (ts : list (wpc result)) :
  Forall dead ts -> Forall (pc_in B) ts.
Proof.
  intros H. eapply Forall_impl; [exact H|]. intros pc Hd. by destruct pc.
Qed.

Lemma preparing_step (B : list string) (k : nat) (a : action) (s s' : state) :
  preparing B k s -> exec worker_function a s = Some s' ->
  (preparing B k s' \/ generation B s') /\ returned s' = returned s.
Proof.
  intros [Hdead Hmain] H.
  assert (Hbusy : idle s = false).
  { unfold idle. destruct Hmain as [(pre & -> & _)|[-> _]]; [|reflexivity].
    by destruct pre. }
  destruct a; simpl in H; rewrite ?Hbusy in H; try discriminate H.
  2:{ change (exec worker_function (Worker tid) s = Some s') in H.
      by rewrite dead_thread_no_step in H. }
  unfold main_step in H.
  destruct Hmain as [(pre & Hm & Hpre)|[Hm Hfiles]]; rewrite Hm in H.
  - destruct pre as [|i pre].
    + simpl in H. destruct (the_file_queue s) as [q|] eqn:Eq; [|discriminate H].
      simpl in H. destruct (get q) as [[p q']|] eqn:Eg; inversion H; subst; clear H.
      * split; [|reflexivity]. left. split; [exact Hdead|]. left.
        exists []. split; [exact Hm | constructor].
      * split; [|reflexivity]. left. split; [exact Hdead|]. right.
        split; [reflexivity|]. unfold file_items, the_file_queue in *.
        simpl. rewrite Eq. simpl. by apply get_None.
    + apply Forall_cons in Hpre as [Hi Hpre].
      destruct i; try contradiction; simpl in H.
      all: try (inversion H; subst; clear H; split; [|reflexivity]; left;
                split; [exact Hdead|]; left; eexists; split;
                [reflexivity | assumption]; fail).
      * destruct (the_file_queue s) as [q|] eqn:Eq; [|discriminate H].
        simpl in H. destruct (get q) as [[p q']|] eqn:Eg;
          inversion H; subst; clear H; (split; [|reflexivity]); left;
          (split; [exact Hdead|]); left.
        -- exists (IClearFileQueue :: pre). split; [exact Hm|].
           by constructor.
        -- exists pre. split; [reflexivity | assumption].
      * inversion H; subst; clear H. split; [|reflexivity]. left.
        split; [exact Hdead|]. left.
        exists (map IJoin (worker_threads (self s)) ++ pre).
        split; [simpl; by rewrite <- app_assoc|].
        apply Forall_app_2; [|assumption].
        apply Forall_forall. intros j Hj.
        apply list_elem_of_fmap in Hj as (t & -> & _). exact I.
  - simpl in H. destruct (the_analysis_queue s) as [q|] eqn:Eq; [|discriminate H].
    simpl in H. destruct (get q) as [[r q']|] eqn:Eg; inversion H; subst; clear H.
    + split; [|reflexivity]. left. split; [exact Hdead|]. right.
      split; [exact Hm | exact Hfiles].
    + split; [|reflexivity]. right. unfold generation.
      split; [apply enqueue_and_spawn_in|].
      split; [unfold file_items, the_file_queue in *; simpl in *;
              rewrite Hfiles; constructor|].
      split; [|by apply dead_pc_in].
      unfold analysis_items, the_analysis_queue in *. simpl.
      rewrite Eq. simpl. apply get_None in Eg. rewrite Eg. constructor.
Qed.

(** When no thread of an earlier session is alive at the moment
    [start_workers] is called with the batch [B], every result [get_result]
    returns from then on, until the next [start_workers], was computed from
    a path of [B]. *)
Lemma clean_restart_delivers_new_batch (s s' : state) (B : list string)
    (acts : list action) :
  main s = [] -> Forall dead (threads s) -> Forall no_start acts ->
  run worker_function (Call_start_workers B :: acts) s = Some s' ->
  exists new, returned s' = returned s ++ new /\ Forall (ret_in B) new.
Proof.
  intros Hidle Hdead Hacts Hrun.
  cbn [run] in Hrun. simpl in Hrun. unfold idle in Hrun. rewrite Hidle in Hrun.
  simpl in Hrun.
  set (k := Z.to_nat (num_workers (self s))) in *.
  set (P := fun t : state =>
              (preparing B k t \/ generation B t) /\
              exists new, returned t = returned s ++ new /\ Forall (ret_in B) new).
  assert (HP : P s').
  { eapply (run_invariant_on worker_function no_start P); [|exact Hacts| |exact Hrun].
    - intros a t t' Ha [[Hprep|Hgen] (new & Hnew & Hall)] Hexec.
      + destruct (preparing_step B k a t t' Hprep Hexec) as [Hnext Hret].
        split; [exact Hnext|]. exists new. by rewrite Hret.
      + destruct (generation_step B a t t' Ha Hgen Hexec)
          as [Hnext (new' & Hnew' & Hall')].
        split; [by right|]. exists (new ++ new').
        split; [by rewrite Hnew', Hnew, app_assoc|]. by apply Forall_app_2.
    - split.
      + left. split; [exact Hdead|]. left.
        exists [IStopSet; IClearFileQueue; IJoinThreads; IResetThreads; IStopClear].
        split; [reflexivity|]. by repeat constructor.
      + exists []. split; [by rewrite app_nil_r | constructor]. }
  exact (proj2 HP).
Qed.

End Generations.

(** *** When the consumer may stop waiting *)

Section Completion.
Context {result : Type}.
Variable worker_function : string -> string + result.

Local Abbreviation state := (state result).

(** Every thread that is alive is one of [worker_threads]. *)
Definition all_tracked (s : state) : Prop :=
  forall tid pc,
    threads s !! tid = Some pc -> is_alive pc = true ->
    tid ∈ worker_threads (self s).

Lemma inactive_all_dead (s : state) :
  all_tracked s -> workers_active s = false -> Forall dead (threads s).
Proof.
  intros Htr Hact. apply Forall_lookup. intros tid pc Hpc.
  unfold dead. destruct (is_alive pc) eqn:Halive; [|reflexivity].
  pose proof (Htr tid pc Hpc Halive) as Hin.
  assert (Hyes : workers_active s = true); [|congruence].
  unfold workers_active. apply existsb_exists. exists tid.
  split; [by apply list_elem_of_In | by rewrite Hpc].
Qed.

(** X22. Once [workers_active()] answers [False] in a state where every
    live thread is tracked, the pool is at rest: as long as no new call of
    [start_workers] or [stop_workers] is made, no worker takes a step, no
    result is pushed, nothing is logged and the file queue stays as it is;
    [get_result] can only hand out what the analysis queue already holds.
    This is what the consumer's test for the end of a batch relies on. *)
Theorem inactive_pool_is_at_rest (acts : list action) (s s' : state) :
  all_tracked s -> workers_active s = false ->
  Forall between_calls acts ->
  run worker_function acts s = Some s' ->
  threads s' = threads s /\ put_history s' = put_history s /\
  log s' = log s /\ file_items s' = file_items s /\
  exists taken, analysis_items s = taken ++ analysis_items s'.
Proof.
  intros Htr Hact Hacts Hrun.
  pose proof (inactive_all_dead s Htr Hact) as Hdead.
  apply (run_invariant_on worker_function between_calls
           (fun t => threads t = threads s /\ put_history t = put_history s /\
                     log t = log s /\ file_items t = file_items s /\
                     exists taken, analysis_items s = taken ++ analysis_items t))
    with (acts := acts) (s := s); try done.
  - intros a t t' Ha (Ht & Hp & Hl & Hf & taken & Hq) H.
    destruct a; try contradiction.
    + unfold exec, get_result, idle in H.
      destruct (main t); [|discriminate H].
      unfold analysis_items in *.
      destruct (the_analysis_queue t) as [q|] eqn:Eq; [|discriminate H].
      cbn [mbind option_bind] in H.
      destruct (get q) as [[r q']|] eqn:Eg; inversion H; subst; clear H;
        unfold file_items, the_file_queue, the_analysis_queue in *; cbn in *.
      * rewrite lookup_insert_eq. repeat (split; [assumption|]).
        apply get_Some in Eg as (Hi & _ & _). rewrite ?Eq in Hq. cbn in *.
        exists (taken ++ [r]). rewrite Hq, Hi, <- app_assoc. reflexivity.
      * rewrite Eq. repeat (split; [assumption|]). by exists taken.
    + rewrite <- Ht in Hdead.
      by rewrite (dead_thread_no_step worker_function t tid Hdead) in H.
  - repeat (split; [reflexivity|]). by exists [].
Qed.

End Completion.

(** *** The pool running [analyze_audio_file] *)

Section Analysis.
Variable load : string -> string + Analyzer.decoded.
Variable py_int : string -> option Z.
Variable popm_str : Z -> string.
Variable popm_email : string.

Definition analyze : string -> string + Analyzer.AnalysisResult :=
  Analyzer.analyze_audio_file load py_int popm_str popm_email.

(** No result of a path whose analysis raises is ever pushed. *)
Lemma failed_path_never_pushed (n : Z) (stop0 : bool)
    (s : state Analyzer.AnalysisResult) (p msg : string) :
  reachable analyze n stop0 s -> analyze p = inl msg ->
  Forall (fun r => Analyzer.filepath r <> p) (put_history s).
Proof.
  intros Hreach Hfail.
  destruct (reachable_origin_ok analyze n stop0 s Hreach) as (_ & Hhist & _).
  eapply Forall_impl; [exact Hhist|].
  intros r [q Hq] Heq.
  pose proof (Analyzer.analyze_audio_file_filepath _ _ _ _ _ _ Hq) as Hp.
  rewrite Heq in Hp. subst q. rewrite Hfail in Hq. discriminate Hq.
Qed.

(** With [analyze_audio_file] as the worker function: a restart that finds
    no thread alive hands the consumer results of the new batch only. *)
Lemma clean_restart_paths (s s' : state Analyzer.AnalysisResult)
    (B : list string) (acts : list action) :
  main s = [] -> Forall dead (threads s) -> Forall no_start acts ->
  run analyze (Call_start_workers B :: acts) s = Some s' ->
  exists new,
    returned s' = returned s ++ new /\
    Forall (ret_in Analyzer.filepath B) new.
Proof.
  apply clean_restart_delivers_new_batch.
  intros filepath r. apply Analyzer.analyze_audio_file_filepath.
Qed.

End Analysis.

(** *** A small studio *)

(** Every file decodes to the same two frames, except [broken.mp3]. *)
Definition studio_load (p : string) : string + Analyzer.decoded :=
  if String.eqb p "broken.mp3" then inl "could not decode"
  else inr (Analyzer.mkDecoded "ID3" 1%Q Waveform.two_frames
              [100%Q; 1000%Q] ∅ None).

Definition studio : string -> string + Analyzer.AnalysisResult :=
  analyze studio_load (fun _ => None) (fun _ => "") "changeme@pulzwave.com".

Definition batch_A : list string := ["a1.mp3"; "a2.mp3"; "a3.mp3"; "a4.mp3"].
Definition batch_B : list string := ["b1.mp3"].

(** One worker, batch A: the call returns, then the worker analyses and
    pushes [a1] and [a2], analyses [a3] and finds the queue full. *)
Definition first_session : list action :=
  Call_start_workers batch_A :: replicate 13 Main ++ replicate 13 (Worker 0).

(** The caller picks a new folder: [stop_workers()], then
    [start_workers(batch_B)], both run to their end while the worker of the
    first session waits for room in the analysis queue. *)
Definition restart : list action :=
  Call_stop_workers :: replicate 7 Main
  ++ Call_start_workers batch_B :: replicate 12 Main.

(** The waiting worker completes its push; the caller asks for a result. *)
Definition afterwards : list action := [Worker 0; Call_get_result].

(** What one sees of a state when each result is named by its path. *)
Record snapshot := mkSnapshot {
  snap_main : list minstr;
  snap_flag : bool;
  snap_threads : list (wpc string);
  snap_worker_threads : list nat;
  snap_pending : list string;
  snap_buffered : list string;
  snap_returned : list (option string);
  snap_log : list string
}.

Definition pc_path (pc : wpc Analyzer.AnalysisResult) : wpc string :=
  match pc with
  | AtWhile => AtWhile
  | AtGet => AtGet
  | AtCall p => AtCall p
  | AtPut p r => AtPut p (Analyzer.filepath r)
  | AtTaskDone p => AtTaskDone p
  | Finished => Finished
  | Crashed => Crashed
  end.

Definition look (s : state Analyzer.AnalysisResult) : snapshot :=
  mkSnapshot (main s) (stop_event s) (map pc_path (threads s))
    (worker_threads (self s)) (file_items s)
    (map Analyzer.filepath (analysis_items s))
    (map (option_map Analyzer.filepath) (returned s)) (log s).

(** C1, on the code.  One worker is started on batch A and stopped while its
    third result waits for room in the full analysis queue (the join cannot
    succeed: only the caller could make room); the pool is started on batch
    B, and the call returns with nothing yet handed to the consumer and
    nothing buffered.  The worker of the first session then completes its
    push, and the next [get_result] returns the result of [a3.mp3], a path
    of batch A that batch B does not contain.  Compare
    [clean_restart_paths]: the restart is safe when no thread of the first
    session is alive. *)
Theorem stale_result_after_restart :
  look <$> run studio first_session (__init__ 1 false)
  = Some (mkSnapshot [] false [AtPut "a3.mp3" "a3.mp3"] [0%nat]
            ["a4.mp3"] ["a1.mp3"; "a2.mp3"] [] []) /\
  look <$> run studio (first_session ++ restart) (__init__ 1 false)
  = Some (mkSnapshot [] false [AtPut "a3.mp3" "a3.mp3"; AtWhile] [1%nat]
            batch_B [] [] []) /\
  look <$> run studio (first_session ++ restart ++ afterwards) (__init__ 1 false)
  = Some (mkSnapshot [] false [AtTaskDone "a3.mp3"; AtWhile] [1%nat]
            batch_B [] [Some "a3.mp3"] []) /\
  In "a3.mp3" batch_A /\ ~ In "a3.mp3" batch_B.
Proof.
  split; [vm_compute; reflexivity|].
  split; [vm_compute; reflexivity|].
  split; [vm_compute; reflexivity|].
  split; [simpl; auto|].
  simpl. intros [H|[]]. discriminate H.
Qed.

(** Two workers, one file: the first worker has claimed it, the second
    one waits in [get] on the empty queue, the flag is clear. *)
Definition one_file_two_workers : list action :=
  Call_start_workers ["a1.mp3"] :: replicate 11 Main
  ++ [Worker 0; Worker 0; Worker 1].

(** C2, where the specification and the code part: with the flag clear and
    the file queue empty, the step of the worker waiting in [get] ends its
    loop; it is not back at the head of the loop. *)
Lemma idle_worker_leaves_the_loop :
  look <$> run studio one_file_two_workers (__init__ 2 false)
  = Some (mkSnapshot [] false [AtCall "a1.mp3"; AtGet] [0; 1]%nat
            [] [] [] []) /\
  look <$> run studio (one_file_two_workers ++ [Worker 1]) (__init__ 2 false)
  = Some (mkSnapshot [] false [AtCall "a1.mp3"; Finished] [0; 1]%nat
            [] [] [] []) /\
  @Finished string <> AtWhile.
Proof.
  split; [vm_compute; reflexivity|].
  split; [vm_compute; reflexivity|].
  discriminate.
Qed.

(** The state a schedule leads to from a fresh pool. *)
Definition after (n : Z) (acts : list action) : state Analyzer.AnalysisResult :=
  from_option id (__init__ n false) (run studio acts (__init__ n false)).

(** A schedule that can be run leads to a reachable state. *)
Definition runs (n : Z) (acts : list action) : bool :=
  match run studio acts (__init__ n false) with
  | Some _ => true
  | None => false
  end.

Lemma after_reachable (n : Z) (acts : list action) :
  runs n acts = true -> reachable studio n false (after n acts).
Proof.
  unfold runs, after. intros H. exists acts.
  destruct (run studio acts (__init__ n false)); [reflexivity | discriminate H].
Qed.

Lemma worker_loop_step_witness :
  exec studio (Worker 1) (after 2 one_file_two_workers)
  = Some (set_pc 1 Finished (after 2 one_file_two_workers)).
Proof.
  eapply (proj1 (proj2 (proj2 (worker_loop_step studio
                                 (after 2 one_file_two_workers) 1)))).
  - vm_compute. reflexivity.
  - vm_compute. reflexivity.
  - reflexivity.
Defined.

Lemma analysis_queue_bound_witness :
  exists aq,
    the_analysis_queue (after 1 first_session) = Some aq /\
    qsize aq <= 1 + 1 /\
    exec studio (Worker 0) (after 1 first_session) = None.
Proof.
  destruct (analysis_queue_bound studio 1 false (after 1 first_session))
    as (aq & Haq & Hmax & Hsize & _ & Hfull & _).
  - lia.
  - apply after_reachable. vm_compute. reflexivity.
  - exists aq. split; [exact Haq|]. split; [exact Hsize|].
    eapply Hfull.
    + vm_compute. reflexivity.
    + assert (Hq : qsize <$> the_analysis_queue (after 1 first_session) = Some 2)
        by (vm_compute; reflexivity).
      rewrite Haq in Hq. by inversion Hq.
Defined.

(** One worker, a batch that begins with the file that cannot be decoded:
    the worker has claimed it. *)
Definition broken_claimed : list action :=
  Call_start_workers ["broken.mp3"; "a1.mp3"] :: replicate 11 Main
  ++ [Worker 0; Worker 0].

Lemma failure_is_contained_witness :
  exists s2,
    run studio [Worker 0; Worker 0] (after 1 broken_claimed) = Some s2 /\
    log s2 = [error_line "broken.mp3" "could not decode"] /\
    put_history s2 = [] /\
    threads s2 = [AtWhile].
Proof.
  destruct (failure_is_contained studio 1 false (after 1 broken_claimed)
              0 "broken.mp3" "could not decode")
    as (s1 & s2 & H1 & H2 & Hlog & _ & Hput & _ & _ & Hthreads & _).
  - apply after_reachable. vm_compute. reflexivity.
  - vm_compute. reflexivity.
  - vm_compute. reflexivity.
  - exists s2. split; [|split; [|split]].
    + cbn [run]. rewrite H1. cbn [mbind option_bind]. rewrite H2. reflexivity.
    + rewrite Hlog. reflexivity.
    + rewrite Hput. reflexivity.
    + rewrite Hthreads. reflexivity.
Defined.

(** The same session run to its end: the worker logs the failure, goes on
    with the next file, pushes its result and ends on the empty queue; the
    consumer is handed the one result, then nothing. *)
Example one_bad_one_good :
  look <$> run studio (broken_claimed ++ replicate 9 (Worker 0)
                       ++ [Call_get_result; Call_get_result]) (__init__ 1 false)
  = Some (mkSnapshot [] false [Finished] [0%nat] [] []
            [Some "a1.mp3"; None]
            ["Worker error processing broken.mp3: could not decode"]).
Proof. vm_compute. reflexivity. Qed.





(** *** The further properties on the studio *)

Definition ran {A} (o : option A) : bool :=
  match o with
  | Some _ => true
  | None => false
  end.

(** The session of [one_bad_one_good], up to the first [get_result]. *)
Definition bad_then_good : list action :=
  broken_claimed ++ replicate 9 (Worker 0) ++ [Call_get_result].

Lemma no_worker_crashes_witness :
  Forall not_crashed (threads (after 1 bad_then_good)).
Proof.
  apply (no_worker_crashes studio 1 false).
  apply after_reachable. vm_compute. reflexivity.
Defined.

Lemma results_in_push_order_witness :
  (delivered (after 1 bad_then_good) ++ analysis_items (after 1 bad_then_good))
  `sublist_of` put_history (after 1 bad_then_good).
Proof.
  apply (results_in_push_order studio 1 false).
  apply after_reachable. vm_compute. reflexivity.
Defined.

Lemma every_file_accounted_witness :
  exists s',
    run studio (replicate 9 (Worker 0) ++ [Call_get_result])
      (after 1 broken_claimed) = Some s' /\
    accounted s' = accounted (after 1 broken_claimed).
Proof.
  assert (R : ran (run studio (replicate 9 (Worker 0) ++ [Call_get_result])
                     (after 1 broken_claimed)) = true)
    by (vm_compute; reflexivity).
  destruct (run studio (replicate 9 (Worker 0) ++ [Call_get_result])
              (after 1 broken_claimed)) as [s'|] eqn:E; [|discriminate R].
  exists s'. split; [reflexivity|].
  apply (every_file_accounted studio
           (replicate 9 (Worker 0) ++ [Call_get_result])); [|exact E].
  apply Forall_app_2; [apply Forall_replicate; exact I|].
  repeat constructor.
Defined.

Lemma stop_workers_forgets_workers_witness :
  exists k s',
    run studio (Call_stop_workers :: replicate k Main) (after 1 first_session)
    = Some s' /\
    main s' = [] /\
    file_items s' = [] /\
    analysis_items s' = analysis_items (after 1 first_session) /\
    threads s' = threads (after 1 first_session).
Proof.
  apply (stop_workers_forgets_workers studio 1 false (after 1 first_session)).
  - apply after_reachable. vm_compute. reflexivity.
  - vm_compute. reflexivity.
Defined.

Lemma start_workers_tracks_new_threads_witness :
  exists s',
    run studio (Call_start_workers batch_B :: replicate 14 Main)
      (after 1 first_session) = Some s' /\
    worker_threads (self s') = [1%nat].
Proof.
  assert (R : main <$> run studio (Call_start_workers batch_B :: replicate 14 Main)
                         (after 1 first_session) = Some [])
    by (vm_compute; reflexivity).
  destruct (run studio (Call_start_workers batch_B :: replicate 14 Main)
              (after 1 first_session)) as [s'|] eqn:E; [|discriminate R].
  exists s'. split; [reflexivity|].
  destruct (start_workers_tracks_new_threads studio 1 false
              (after 1 first_session) batch_B (replicate 14 Main) s')
    as [Hwt _].
  - apply after_reachable. vm_compute. reflexivity.
  - vm_compute. reflexivity.
  - apply Forall_replicate. exact I.
  - exact E.
  - by injection R.
  - rewrite Hwt.
    assert (Hlen : length (threads (after 1 first_session)) = 1%nat)
      by (vm_compute; reflexivity).
    rewrite Hlen. reflexivity.
Defined.

Lemma inactive_pool_is_at_rest_witness :
  exists s',
    run studio [Call_get_result; Worker 0; Call_get_result]
      (after 1 bad_then_good) = None /\
    run studio [Call_get_result; Call_get_result] (after 1 bad_then_good)
    = Some s' /\
    put_history s' = put_history (after 1 bad_then_good).
Proof.
  assert (R : ran (run studio [Call_get_result; Call_get_result]
                     (after 1 bad_then_good)) = true)
    by (vm_compute; reflexivity).
  destruct (run studio [Call_get_result; Call_get_result]
              (after 1 bad_then_good)) as [s'|] eqn:E; [|discriminate R].
  exists s'. split; [vm_compute; reflexivity|]. split; [reflexivity|].
  destruct (inactive_pool_is_at_rest studio [Call_get_result; Call_get_result]
              (after 1 bad_then_good) s') as (_ & Hp & _).
  - intros tid pc Hpc Halive.
    assert (Hts : map pc_path (threads (after 1 bad_then_good)) = [Finished])
      by (vm_compute; reflexivity).
    apply (f_equal (fun l => l !! tid)) in Hts.
    rewrite list_lookup_fmap, Hpc in Hts. destruct tid as [|tid].
    + by destruct pc.
    + discriminate Hts.
  - vm_compute. reflexivity.
  - repeat constructor.
  - exact E.
  - exact Hp.
Defined.

End Pool.
